(** * File explorer: tree projection, keyboard navigation and change fan-out

    A shallow embedding of the pure client-side helpers
    ([countFilesWithinFolder], [findTypeaheadMatch], [flattenTree],
    [findNodeByPath], [findParentPath]), of the navigation transitions of
    the [FileExplorer] component, and of the server-side watcher and
    coalescing timer, together with the properties proved about them. *)

From Stdlib Require Import ZArith Ascii String List Lia.
From stdpp Require Import base decidable option list gmap strings.
From Equations Require Import Equations.

Local Open Scope string_scope.
Local Open Scope list_scope.

(** ** Data model (app/utils.ts) *)

(** [type: "file" | "folder"] *)
Inductive NodeType : Type := file | folder.

#[global] Instance NodeType_eq_dec : EqDecision NodeType.
Proof. solve_decision. Defined.

Local Unset Elimination Schemes.

(** [FileTreeNode].  The optional [children] field is [None] when it is
    missing or is not an array (the code only ever reads it behind
    [Array.isArray]).  The descriptive metadata ([extension],
    [sizeInBytes], [modifiedAt]) is read by none of the functions below and
    is left out. *)
Inductive FileTreeNode : Type :=
  mkNode { type : NodeType;
           name : string;
           path : string;
           children : option (list FileTreeNode) }.

Local Set Elimination Schemes.

(** [VisibleNode] *)
Record VisibleNode : Type :=
  mkVisible { node : FileTreeNode; depth : nat }.

(** [Array.isArray(node.children) ? node.children : []] *)
Definition childrenOrEmpty (n : FileTreeNode) : list FileTreeNode :=
  match children n with
  | Some cs => cs
  | None => []
  end.

(** Induction over the nesting of nodes: the property holds of a node as
    soon as it holds of every element of its [children] array. *)
Section FileTreeNode_induction.
Variable P : FileTreeNode -> Prop.
Hypothesis step :
  forall ty nm p cs,
    Forall P (match cs with Some l => l | None => [] end) ->
    P (mkNode ty nm p cs).

Fixpoint FileTreeNode_ind (n : FileTreeNode) : P n :=
  match n with
  | mkNode ty nm p cs =>
      step ty nm p cs
        (match cs as o return Forall P (match o with Some l => l | None => [] end) with
         | Some l =>
             (fix all (l : list FileTreeNode) : Forall P l :=
                match l with
                | [] => @List.Forall_nil _ P
                | c :: l' => @List.Forall_cons _ P c l' (FileTreeNode_ind c) (all l')
                end) l
         | None => @List.Forall_nil _ P
         end)
  end.
End FileTreeNode_induction.

(** ** Tree projection (FileExplorer: [flattenTree]) *)

(** The inner closure [visit] pushes onto the shared array [result]; the
    array is threaded through the calls.  [children] is the array of the
    node, or the empty array (over which [forEach] does nothing) when the
    field is not an array. *)
Fixpoint visit (expanded : gset string) (n : FileTreeNode) (d : nat)
    (result : list VisibleNode) {struct n} : list VisibleNode :=
  let result := result ++ [mkVisible n d] in
  if bool_decide (type n = folder) && bool_decide (path n ∈ expanded) then
    match children n with
    | Some children =>
        fold_left (fun acc child => visit expanded child (d + 1) acc)
          children result
    | None => result
    end
  else result.

Definition flattenTree (root : FileTreeNode) (expanded : gset string)
  : list VisibleNode :=
  visit expanded root 0 [].

(** ** File count (app/utils.ts: [countFilesWithinFolder]) *)

(** The [for ... of] loop accumulates into [total], starting from 0; over
    the empty array that stands for a missing [children] it returns 0. *)
Fixpoint countFilesWithinFolder (n : FileTreeNode) {struct n} : nat :=
  match type n with
  | file => 0
  | folder =>
      match children n with
      | Some children =>
          fold_left
            (fun total child =>
               match type child with
               | file => total + 1
               | folder => total + countFilesWithinFolder child
               end)
            children 0
      | None => 0
      end
  end.

(** ** Strings

    JavaScript strings are modelled by [string], one [ascii] per character.
    [toLowerCase] and [trim] below are the built-ins on strings of ASCII
    characters (codes below 128, [asciiString]): there [toLowerCase] maps
    [A-Z] to [a-z] and nothing else, and [trim] removes TAB, LF, VT, FF, CR
    and SPACE and nothing else.  On other strings the built-ins do more
    (they lower every cased letter, [É] to [é], and strip U+00A0, U+FEFF,
    U+2028, U+2029 and the other Unicode spaces), which these definitions
    do not follow: what is proved of the names matched by a query is
    therefore stated for ASCII queries and names. *)

Definition lowerChar (c : ascii) : ascii :=
  let k := N_of_ascii c in
  if ((65 <=? k) && (k <=? 90))%N then ascii_of_N (k + 32) else c.

Fixpoint toLowerCase (s : string) : string :=
  match s with
  | EmptyString => EmptyString
  | String c rest => String (lowerChar c) (toLowerCase rest)
  end.

Definition isWhiteSpace (c : ascii) : bool :=
  let k := N_of_ascii c in
  ((9 <=? k) && (k <=? 13) || (k =? 32))%N.

Fixpoint trimStart (s : string) : string :=
  match s with
  | EmptyString => EmptyString
  | String c rest => if isWhiteSpace c then trimStart rest else s
  end.

Fixpoint trimEnd (s : string) : string :=
  match s with
  | EmptyString => EmptyString
  | String c rest =>
      match trimEnd rest with
      | EmptyString => if isWhiteSpace c then EmptyString else String c EmptyString
      | kept => String c kept
      end
  end.

Definition trim (s : string) : string := trimEnd (trimStart s).

(** The strings on which [toLowerCase] and [trim] above are the built-ins:
    every character is an ASCII character. *)
Definition asciiChar (c : ascii) : bool := (N_of_ascii c <? 128)%N.

Fixpoint asciiString (s : string) : bool :=
  match s with
  | EmptyString => true
  | String c rest => asciiChar c && asciiString rest
  end.

Definition asciiNames (nodes : list VisibleNode) : bool :=
  forallb (fun item => asciiString (name (node item))) nodes.

(** [name.startsWith(prefix)] *)
Definition startsWith (s prefix : string) : bool := String.prefix prefix s.

(** Truthiness of a [string | null] value: [null] and the empty string are
    falsy. *)
Definition truthy (v : option string) : bool :=
  match v with
  | Some p => negb (bool_decide (p = ""))
  | None => false
  end.

(** ** Arrays *)

(** [Array.prototype.findIndex]: the index of the first element that
    satisfies [pred], or -1. *)
Fixpoint findIndexFrom {A : Type} (pred : A -> bool) (i : Z) (l : list A) : Z :=
  match l with
  | [] => (-1)%Z
  | x :: rest => if pred x then i else findIndexFrom pred (i + 1)%Z rest
  end.

Definition findIndex {A : Type} (pred : A -> bool) (l : list A) : Z :=
  findIndexFrom pred 0%Z l.

(** [selectedPath ? nodes.findIndex((item) => item.node.path === selectedPath) : -1],
    the expression shared by [findTypeaheadMatch] ([startIndex]) and
    [moveSelection] ([currentIndex]). *)
Definition selectedIndex (nodes : list VisibleNode) (selectedPath : option string) : Z :=
  match selectedPath with
  | Some p =>
      if truthy (Some p)
      then findIndex (fun item => bool_decide (path (node item) = p)) nodes
      else (-1)%Z
  | None => (-1)%Z
  end.

(** ** Type-ahead (app/utils.ts: [findTypeaheadMatch]) *)

(** The [for] loop, entered with [offset] and with [remaining] iterations
    to go ([offset] runs from 1 to [total]).  An index outside the array
    would make [candidate] undefined and the property access throw; the
    model answers [None] there. *)
Fixpoint typeaheadLoop (normalized : string) (nodes : list VisibleNode)
    (startIndex total offset : Z) (remaining : nat) : option VisibleNode :=
  match remaining with
  | O => None
  | S remaining' =>
      let index := Z.rem (startIndex + offset + total) total in
      match nodes !! Z.to_nat index with
      | Some candidate =>
          if startsWith (toLowerCase (name (node candidate))) normalized
          then Some candidate
          else typeaheadLoop normalized nodes startIndex total (offset + 1)%Z remaining'
      | None => None
      end
  end.

Definition findTypeaheadMatch (query : string) (nodes : list VisibleNode)
    (selectedPath : option string) : option VisibleNode :=
  let normalized := toLowerCase (trim query) in
  if bool_decide (normalized = "") || bool_decide (length nodes = 0) then None
  else
    let startIndex := selectedIndex nodes selectedPath in
    let total := Z.of_nat (length nodes) in
    typeaheadLoop normalized nodes startIndex total 1%Z (length nodes).

(** ** Lookup by path (FileExplorer: [findNodeByPath], [findParentPath])

    Both functions keep the nodes still to be examined in an array used as
    a stack ([pop] takes the last element, [push] appends).  The array is
    represented by a list whose head is the top of the stack, that is, by
    the array read from its last element to its first: the initial array
    [[...root.children]] is [rev children], and [push(...children)] puts
    [rev children] in front. *)

Fixpoint nodeSize (n : FileTreeNode) {struct n} : nat :=
  S (match children n with
     | Some cs => list_sum (map nodeSize cs)
     | None => 0
     end).

Definition stackSize (stack : list FileTreeNode) : nat :=
  list_sum (map nodeSize stack).

(** Discharges the termination conditions of the two loops below: every
    iteration removes one node from the stack and puts at most its children
    back, so the number of nodes held by the stack, nested ones included,
    goes down. *)
Ltac stack_measure :=
  let Hrev := fresh "Hrev" in
  assert (Hrev : forall l : list nat, list_sum (rev l) = list_sum l)
    by (let l := fresh "l" in let IH := fresh "IH" in
        induction l as [|? l IH]; simpl; [reflexivity|];
        rewrite list_sum_app, IH; simpl; lia);
  unfold stackSize; simpl;
  rewrite ?map_app, ?list_sum_app, ?map_rev, ?Hrev, ?map_map; simpl;
  change (fun x : FileTreeNode => nodeSize x) with nodeSize;
  lia.

(** The [while (stack.length > 0)] loop of [findNodeByPath]. *)
Equations? searchStack (p : string) (stack : list FileTreeNode)
  : option FileTreeNode by wf (stackSize stack) lt :=
  searchStack p [] := None;
  searchStack p (mkNode ty nm pth ch :: rest) with bool_decide (pth = p) := {
    | true := Some (mkNode ty nm pth ch);
    | false with ty, ch := {
        | folder, Some cs := searchStack p (rev cs ++ rest);
        | _, _ := searchStack p rest } }.
Proof.
  all: stack_measure.
Qed.

Definition findNodeByPath (root : option FileTreeNode) (p : option string)
  : option FileTreeNode :=
  match root, p with
  | Some root, Some p =>
      if negb (truthy (Some p)) then None
      else if bool_decide (path root = p) then Some root
      else
        searchStack p
          (match children root with Some cs => rev cs | None => [] end)
  | _, _ => None
  end.

(** The loop of [findParentPath]; the stack holds
    [{ node, parentPath }] records. *)
Equations? searchParentStack (targetPath : string)
    (stack : list (FileTreeNode * string))
  : option string by wf (stackSize (map fst stack)) lt :=
  searchParentStack targetPath [] := None;
  searchParentStack targetPath ((mkNode ty nm pth ch, parentPath) :: rest)
    with bool_decide (pth = targetPath) := {
    | true := Some parentPath;
    | false with ty, ch := {
        | folder, Some cs :=
            searchParentStack targetPath
              (rev (map (fun child => (child, pth)) cs) ++ rest);
        | _, _ := searchParentStack targetPath rest } }.
Proof.
  all: stack_measure.
Qed.

Definition findParentPath (root : option FileTreeNode) (targetPath : option string)
  : option string :=
  match root, targetPath with
  | Some root, Some targetPath =>
      if negb (truthy (Some targetPath)) || bool_decide (path root = targetPath)
      then None
      else
        searchParentStack targetPath
          (match children root with
           | Some cs => rev (map (fun child => (child, path root)) cs)
           | None => []
           end)
  | _, _ => None
  end.

(** ** Client state (FileExplorer) *)

Definition TYPEAHEAD_RESET_MS : Z := 800.

Record TypeaheadState : Type :=
  mkTypeahead { buffer : string; lastInputTime : Z }.

(** The [useState] cells of the component and the [typeaheadState] ref. *)
Record ExplorerState : Type :=
  mkExplorer { tree : option FileTreeNode;
               loading : bool;
               error : option string;
               expanded : gset string;
               selectedPath : option string;
               typeaheadState : TypeaheadState }.

Definition initialExplorer : ExplorerState :=
  mkExplorer None true None {["root"]} None (mkTypeahead "" 0).

Definition setSelectedPath (p : option string) (s : ExplorerState) : ExplorerState :=
  mkExplorer (tree s) (loading s) (error s) (expanded s) p (typeaheadState s).

Definition setExpanded (f : gset string -> gset string) (s : ExplorerState)
  : ExplorerState :=
  mkExplorer (tree s) (loading s) (error s) (f (expanded s)) (selectedPath s)
    (typeaheadState s).

Definition setTypeahead (t : TypeaheadState) (s : ExplorerState) : ExplorerState :=
  mkExplorer (tree s) (loading s) (error s) (expanded s) (selectedPath s) t.

(** Values derived on every render. *)
Definition visibleNodes (s : ExplorerState) : list VisibleNode :=
  match tree s with
  | Some t => flattenTree t (expanded s)
  | None => []
  end.

Definition selectedNode (s : ExplorerState) : option FileTreeNode :=
  findNodeByPath (tree s) (selectedPath s).

(** [source.onmessage].  [payload] is the outcome of [JSON.parse]
    ([None] when it throws, which the handler only logs); [cancelled] is
    the flag of the effect. *)
Definition onmessage (cancelled : bool) (payload : option FileTreeNode)
    (s : ExplorerState) : ExplorerState :=
  match payload with
  | None => s
  | Some payload =>
      if cancelled then s
      else
        mkExplorer (Some payload) false None (expanded s)
          (let previous := selectedPath s in
           if negb (truthy previous) then previous
           else
             match findNodeByPath (Some payload) previous with
             | Some _ => previous
             | None => None
             end)
          (typeaheadState s)
  end.

(** [moveSelection], with the [visibleNodes] and [selectedPath] it closes
    over as arguments; the result is the value of [selectedPath] after the
    call.  Both indices read from the array are within its bounds; outside
    them the property access would throw, and the model leaves the
    selection as it is. *)
Definition moveSelection (visibleNodes : list VisibleNode)
    (selectedPath : option string) (delta : Z) : option string :=
  if bool_decide (length visibleNodes = 0) then selectedPath
  else
    let currentIndex := selectedIndex visibleNodes selectedPath in
    if bool_decide (currentIndex = (-1)%Z) then
      let fallbackIndex :=
        if bool_decide (0 < delta)%Z then 0%Z
        else (Z.of_nat (length visibleNodes) - 1)%Z in
      match visibleNodes !! Z.to_nat fallbackIndex with
      | Some item => Some (path (node item))
      | None => selectedPath
      end
    else
      let nextIndex :=
        Z.min (Z.max (currentIndex + delta) 0)
          (Z.of_nat (length visibleNodes) - 1) in
      if bool_decide (nextIndex <> currentIndex) then
        match visibleNodes !! Z.to_nat nextIndex with
        | Some item => Some (path (node item))
        | None => selectedPath
        end
      else selectedPath.

Definition collapseFolder (p : string) (s : ExplorerState) : ExplorerState :=
  setExpanded (fun prev => prev ∖ {[p]}) s.

Definition expandFolder (p : string) (s : ExplorerState) : ExplorerState :=
  setExpanded (fun prev => {[p]} ∪ prev) s.

(** [case "ArrowRight"] *)
Definition arrowRight (s : ExplorerState) : ExplorerState :=
  match selectedNode s with
  | None =>
      match visibleNodes s with
      | first :: _ => setSelectedPath (Some (path (node first))) s
      | [] => s
      end
  | Some selected =>
      match type selected with
      | folder =>
          if negb (bool_decide (path selected ∈ expanded s))
          then expandFolder (path selected) s
          else
            match children selected with
            | Some (firstChild :: _) => setSelectedPath (Some (path firstChild)) s
            | _ => s
            end
      | file => s
      end
  end.

(** [case "ArrowLeft"] *)
Definition arrowLeft (s : ExplorerState) : ExplorerState :=
  match selectedNode s with
  | None => s
  | Some selected =>
      if bool_decide (type selected = folder)
         && bool_decide (path selected ∈ expanded s)
      then collapseFolder (path selected) s
      else
        let parentPath := findParentPath (tree s) (selectedPath s) in
        if truthy parentPath then setSelectedPath parentPath s else s
  end.

(** The part of [handleTreeKeyDown] after the [switch]: Escape and
    type-ahead.  [now] is the value of [Date.now()]. *)
Definition typeaheadKey (key : string) (now : Z) (s : ExplorerState)
  : ExplorerState :=
  if bool_decide (key = "Escape") then setTypeahead (mkTypeahead "" 0) s
  else
    let shouldReset :=
      bool_decide (TYPEAHEAD_RESET_MS < now - lastInputTime (typeaheadState s))%Z in
    let nextBuffer :=
      toLowerCase
        (if shouldReset then key
         else String.append (buffer (typeaheadState s)) key) in
    let s' := setTypeahead (mkTypeahead nextBuffer now) s in
    match findTypeaheadMatch nextBuffer (visibleNodes s) (selectedPath s) with
    | Some item => setSelectedPath (Some (path (node item))) s'
    | None => s'
    end.

(** [handleTreeKeyDown] for an event that is not [defaultPrevented]. *)
Definition handleTreeKeyDown (key : string) (now : Z) (s : ExplorerState)
  : ExplorerState :=
  if bool_decide (key = "ArrowDown")
  then setSelectedPath (moveSelection (visibleNodes s) (selectedPath s) 1) s
  else if bool_decide (key = "ArrowUp")
  then setSelectedPath (moveSelection (visibleNodes s) (selectedPath s) (-1)) s
  else if bool_decide (key = "ArrowRight") then arrowRight s
  else if bool_decide (key = "ArrowLeft") then arrowLeft s
  else typeaheadKey key now s.

(** ** Server: shared watcher and coalescing timer (file-tree stream route)

    The module-level variables, with the effects that leave the module
    recorded next to them.  Watch handles are numbered in the order of the
    [watch()] calls and listener callbacks are told apart by a number.

    [subscribeToFileTreeChanges] and [ensureWatcher] are [async] and are
    suspended at their [await]s.  [ensureWatcher] and [subscribe] below are
    a call during whose suspensions nothing else touches the module; calls
    that overlap are modelled step by step further down ([asyncStep]). *)

Definition COALESCE_MS : Z := 75.

Record ServerState : Type :=
  mkServer { watcher : option nat;
             debounceTimer : option Z;  (* when the pending timeout is due *)
             listeners : list nat;      (* emitter's listeners of FILE_EVENTS *)
             opened : nat;              (* number of [watch()] calls so far *)
             closed : list nat;         (* handles on which [close()] was called *)
             emitted : list Z           (* times of the [emitter.emit] calls *) }.

Definition initialServer : ServerState := mkServer None None [] 0 [] [].

(** [watcher = watch(TREE_ROOT_DIRECTORY, ...)]: a new handle is opened and
    stored in [watcher], whatever [watcher] held. *)
Definition openWatcher (s : ServerState) : ServerState :=
  mkServer (Some (opened s)) (debounceTimer s) (listeners s) (S (opened s))
    (closed s) (emitted s).

(** [emitter.on(FILE_EVENTS, callback)] *)
Definition addListener (cb : nat) (s : ServerState) : ServerState :=
  mkServer (watcher s) (debounceTimer s) (listeners s ++ [cb]) (opened s)
    (closed s) (emitted s).

(** [ensureWatcher()], from the test of [watcher] to the assignment, with
    nothing else running while it awaits [ensureTreeOnDisk()]. *)
Definition ensureWatcher (s : ServerState) : ServerState :=
  match watcher s with
  | Some _ => s
  | None => openWatcher s
  end.

Definition stopWatcher (s : ServerState) : ServerState :=
  match watcher s with
  | None => s
  | Some w =>
      mkServer None (debounceTimer s) (listeners s) (opened s)
        (closed s ++ [w]) (emitted s)
  end.

(** [emitter.off]: removes one instance of the listener, the most recently
    added one. *)
Fixpoint removeListener (cb : nat) (l : list nat) : list nat :=
  match l with
  | [] => []
  | x :: rest =>
      if bool_decide (cb ∈ rest) then x :: removeListener cb rest
      else if bool_decide (x = cb) then rest
      else x :: rest
  end.

(** [subscribeToFileTreeChanges(callback)], with nothing else running
    while it awaits [ensureWatcher()]. *)
Definition subscribe (cb : nat) (s : ServerState) : ServerState :=
  addListener cb (ensureWatcher s).

(** The closure returned by [subscribeToFileTreeChanges(callback)]. *)
Definition unsubscribe (cb : nat) (s : ServerState) : ServerState :=
  let s :=
    mkServer (watcher s) (debounceTimer s) (removeListener cb (listeners s))
      (opened s) (closed s) (emitted s) in
  if bool_decide (length (listeners s) = 0) then stopWatcher s else s.

(** [scheduleEmit()], called at time [now]. *)
Definition scheduleEmit (now : Z) (s : ServerState) : ServerState :=
  match debounceTimer s with
  | Some _ => s
  | None =>
      mkServer (watcher s) (Some (now + COALESCE_MS)%Z) (listeners s) (opened s)
        (closed s) (emitted s)
  end.

(** The callback given to [setTimeout], run at time [now]. *)
Definition timeoutCallback (now : Z) (s : ServerState) : ServerState :=
  mkServer (watcher s) None (listeners s) (opened s) (closed s)
    (emitted s ++ [now]).

(** The timer: a pending timeout runs when it is due, before anything that
    happens at a later time. *)
Definition runTimers (now : Z) (s : ServerState) : ServerState :=
  match debounceTimer s with
  | Some due => if bool_decide (due <= now)%Z then timeoutCallback due s else s
  | None => s
  end.

(** A raw filesystem event at time [now]: the watcher listener calls
    [scheduleEmit]. *)
Definition rawEvent (now : Z) (s : ServerState) : ServerState :=
  scheduleEmit now (runTimers now s).

Definition rawEvents (times : list Z) (s : ServerState) : ServerState :=
  fold_left (fun s now => rawEvent now s) times s.

(** No further event: the pending timeout, if any, runs when due. *)
Definition settle (s : ServerState) : ServerState :=
  match debounceTimer s with
  | Some due => timeoutCallback due s
  | None => s
  end.

Inductive Step : Type :=
| Subscribe (cb : nat)
| Unsubscribe (cb : nat).

Definition step (st : Step) (s : ServerState) : ServerState :=
  match st with
  | Subscribe cb => subscribe cb s
  | Unsubscribe cb => unsubscribe cb s
  end.

Inductive reachable : ServerState -> Prop :=
| reachable_initial : reachable initialServer
| reachable_step s st : reachable s -> reachable (step st s).

(** ** Further handlers

    The handlers of the two files that the properties of the second part
    are about. *)

(** [onNodeClick]: a click on a row toggles the path of a folder in the
    expansion set and selects the row. *)
Definition onNodeClick (item : VisibleNode) (s : ExplorerState) : ExplorerState :=
  let target := node item in
  setSelectedPath (Some (path target))
    (match type target with
     | folder =>
         setExpanded
           (fun prev =>
              if bool_decide (path target ∈ prev) then prev ∖ {[path target]}
              else {[path target]} ∪ prev)
           s
     | file => s
     end).

(** What the user and the push channel can do to the component: a parsed
    snapshot arrives, a key is pressed, a rendered row is clicked. *)
Inductive explorerReachable : ExplorerState -> Prop :=
| explorer_initial : explorerReachable initialExplorer
| explorer_message s payload :
    explorerReachable s -> explorerReachable (onmessage false (Some payload) s)
| explorer_key s key now :
    explorerReachable s -> explorerReachable (handleTreeKeyDown key now s)
| explorer_click s item :
    explorerReachable s -> item ∈ visibleNodes s ->
    explorerReachable (onNodeClick item s).

(** The ['error'] listener that [ensureWatcher] installs on the watcher:
    it logs and calls [stopWatcher]. *)
Definition watcherError (s : ServerState) : ServerState := stopWatcher s.

(** What happens to the server module: subscriptions come and go, the
    watcher fails, raw filesystem events arrive. *)
Inductive ServerEvent : Type :=
| SubscribeCall (cb : nat)
| UnsubscribeCall (cb : nat)
| WatcherFailure
| RawChange (now : Z).

Definition serverStep (e : ServerEvent) (s : ServerState) : ServerState :=
  match e with
  | SubscribeCall cb => subscribe cb s
  | UnsubscribeCall cb => unsubscribe cb s
  | WatcherFailure => watcherError s
  | RawChange now => rawEvent now s
  end.

Definition serverRun (events : list ServerEvent) (s : ServerState) : ServerState :=
  fold_left (fun s e => serverStep e s) events s.

(** ** Server: subscription calls that overlap

    A call of [subscribeToFileTreeChanges(callback)] runs in up to three
    pieces, and anything else may run between them:
    - the call starts and enters [ensureWatcher()], which tests [watcher];
      if a watcher is set, [ensureWatcher] returns and the call is suspended
      at [await ensureWatcher()]; if not, [ensureWatcher] calls
      [ensureTreeOnDisk()] and is suspended at that [await];
    - [ensureTreeOnDisk()] has resolved: [ensureWatcher] resumes, runs
      [watcher = watch(...)] without testing [watcher] again, installs the
      error listener and returns; the call is now suspended at
      [await ensureWatcher()];
    - the call resumes and runs [emitter.on(FILE_EVENTS, callback)].
    The calls in suspension are kept next to the module state, with the
    handles that an assignment to [watcher] replaced while they were
    held. *)

Record AsyncServer : Type :=
  mkAsync { server : ServerState;
            awaitingTree : list nat;     (* calls at [await ensureTreeOnDisk()] *)
            awaitingWatcher : list nat;  (* calls at [await ensureWatcher()] *)
            overwritten : list nat       (* handles replaced in [watcher], never closed *) }.

Definition initialAsync : AsyncServer := mkAsync initialServer [] [] [].

(** The handle that an assignment to [watcher] replaces, if one is held. *)
Definition heldHandle (s : ServerState) : list nat :=
  match watcher s with
  | Some w => [w]
  | None => []
  end.

Inductive AsyncEvent : Type :=
| CallStarts (cb : nat)       (* the call for [cb] runs up to its first [await] *)
| TreeOnDisk (cb : nat)       (* [ensureWatcher] of the call for [cb] resumes *)
| WatcherEnsured (cb : nat)   (* the call for [cb] resumes and registers [cb] *)
| Unsubscribes (cb : nat)     (* the closure returned for [cb] is called *)
| WatcherFails                (* the error listener of a watcher runs *)
| FileChanges (now : Z).      (* the change listener of a watcher runs *)

Definition asyncStep (e : AsyncEvent) (a : AsyncServer) : AsyncServer :=
  match e with
  | CallStarts cb =>
      match watcher (server a) with
      | Some _ =>
          mkAsync (server a) (awaitingTree a) (awaitingWatcher a ++ [cb])
            (overwritten a)
      | None =>
          mkAsync (server a) (awaitingTree a ++ [cb]) (awaitingWatcher a)
            (overwritten a)
      end
  | TreeOnDisk cb =>
      if bool_decide (cb ∈ awaitingTree a)
      then mkAsync (openWatcher (server a))
             (filter (fun c => c <> cb) (awaitingTree a))
             (awaitingWatcher a ++ [cb])
             (overwritten a ++ heldHandle (server a))
      else a
  | WatcherEnsured cb =>
      if bool_decide (cb ∈ awaitingWatcher a)
      then mkAsync (addListener cb (server a)) (awaitingTree a)
             (filter (fun c => c <> cb) (awaitingWatcher a))
             (overwritten a)
      else a
  | Unsubscribes cb =>
      mkAsync (unsubscribe cb (server a)) (awaitingTree a) (awaitingWatcher a)
        (overwritten a)
  | WatcherFails =>
      mkAsync (watcherError (server a)) (awaitingTree a) (awaitingWatcher a)
        (overwritten a)
  | FileChanges now =>
      mkAsync (rawEvent now (server a)) (awaitingTree a) (awaitingWatcher a)
        (overwritten a)
  end.

Definition asyncRun (events : list AsyncEvent) (a : AsyncServer) : AsyncServer :=
  fold_left (fun a e => asyncStep e a) events a.

(** One call with nothing in between. *)
Definition wholeCall (cb : nat) : list AsyncEvent :=
  [CallStarts cb; TreeOnDisk cb; WatcherEnsured cb].

(** Two clients connect together: the calls for callbacks 1 and 2 both
    start, and so both test [watcher], before [ensureTreeOnDisk()] has
    resolved for either; then each runs to its end. *)
Definition overlappingCalls : list AsyncEvent :=
  [CallStarts 1; CallStarts 2;
   TreeOnDisk 1; WatcherEnsured 1;
   TreeOnDisk 2; WatcherEnsured 2].

(** Both clients disconnect. *)
Definition bothLeave : list AsyncEvent := [Unsubscribes 1; Unsubscribes 2].

(** ** Notions of the specification *)

(** Depth-first pre-order projection: the node itself at its depth, then,
    for a folder whose path is in the expansion set and for no other node,
    the projections of its children one level deeper, in display order. *)
Fixpoint preorder (expansionSet : gset string) (n : FileTreeNode) (d : nat)
    {struct n} : list VisibleNode :=
  mkVisible n d ::
  match type n, children n with
  | folder, Some cs =>
      if bool_decide (path n ∈ expansionSet)
      then flat_map (fun child => preorder expansionSet child (d + 1)) cs
      else []
  | _, _ => []
  end.

(** The descendants of a node: the children of a folder and their
    descendants; a file is a leaf. *)
Fixpoint descendants (n : FileTreeNode) {struct n} : list FileTreeNode :=
  match type n, children n with
  | folder, Some cs => flat_map (fun child => child :: descendants child) cs
  | _, _ => []
  end.

Definition fileDescendants (n : FileTreeNode) : list FileTreeNode :=
  filter (fun m => type m = file) (descendants n).


(** The sequence read circularly, from the position after [start] up to
    and including [start]. *)
Definition circularFrom {A : Type} (start : Z) (l : list A) : list A :=
  drop (Z.to_nat (start + 1)) l ++ take (Z.to_nat (start + 1)) l.

(** The name of the node starts with the buffer, case-insensitively. *)
Definition nameStartsWith (buffer : string) (item : VisibleNode) : bool :=
  startsWith (toLowerCase (name (node item))) (toLowerCase buffer).


(** [under c n]: the node [n] is [c] itself or lies below [c], going down
    through the children of folders only (a file is a leaf). *)
Inductive under : FileTreeNode -> FileTreeNode -> Prop :=
| under_self c : under c c
| under_child c cs c' n :
    type c = folder -> children c = Some cs -> c' ∈ cs -> under c' n ->
    under c n.

(** The nodes of a snapshot: the root, its children and what lies below
    them. *)
Definition inSnapshot (root n : FileTreeNode) : Prop :=
  n = root \/ exists c, c ∈ childrenOrEmpty root /\ under c n.

(** [par] is a node of the snapshot that has [n] among its children. *)
Definition parentIn (root par n : FileTreeNode) : Prop :=
  n ∈ childrenOrEmpty par
  /\ (par = root
      \/ (type par = folder /\ exists c, c ∈ childrenOrEmpty root /\ under c par)).

(** The nodes of a snapshot in display order, and the invariant of the data
    model that a path identifies one node of a snapshot. *)
Definition snapshotNodes (root : FileTreeNode) : list FileTreeNode :=
  root :: flat_map (fun c => c :: descendants c) (childrenOrEmpty root).

Definition uniquePaths (root : FileTreeNode) : Prop :=
  NoDup (map path (snapshotNodes root)).

(** What the stack of [findParentPath] holds: nodes of the snapshot, each
    recorded with the path of a node that has it among its children. *)
Definition parentEntry (root : FileTreeNode) (e : FileTreeNode * string) : Prop :=
  exists par, parentIn root par (fst e) /\ snd e = path par.

(** Raw events farther apart than the quiet period: each one comes more
    than [COALESCE_MS] after the one before. *)
Fixpoint spacedApart (times : list Z) : Prop :=
  match times with
  | [] => True
  | t :: rest =>
      match rest with
      | [] => True
      | t' :: _ => (t + COALESCE_MS < t')%Z
      end
      /\ spacedApart rest
  end.

(** Times that do not go backwards. *)
Fixpoint nonDecreasing (times : list Z) : Prop :=
  match times with
  | [] => True
  | t :: rest => Forall (fun t' => (t <= t')%Z) rest /\ nonDecreasing rest
  end.

(** Times that are pairwise at least [gap] apart, in increasing order. *)
Fixpoint apartAtLeast (gap : Z) (times : list Z) : Prop :=
  match times with
  | [] => True
  | t :: rest => Forall (fun t' => (t + gap <= t')%Z) rest /\ apartAtLeast gap rest
  end.

(** Every folder of the subtree of [n] has its path in the set. *)
Definition allExpanded (expansionSet : gset string) (n : FileTreeNode) : Prop :=
  forall m, m ∈ n :: descendants n -> type m = folder -> path m ∈ expansionSet.

(** The selection, when it counts as one, names a node of the current
    tree. *)
Definition selectionResolves (s : ExplorerState) : Prop :=
  truthy (selectedPath s) = true -> is_Some (selectedNode s).

(** The watch handles that are open: opened by a [watch()] call and not
    closed since. *)
Definition openHandles (s : ServerState) : list nat :=
  filter (fun h => h ∉ closed s) (seq 0 (opened s)).

(** What the module keeps true of its watch handles, however calls
    overlap: no handle is closed twice, a handle that was replaced in
    [watcher] is never closed, the handle held is neither closed nor
    replaced, and every handle opened so far is the one held, has been
    closed, or has been replaced. *)
Definition handlesAccounted (a : AsyncServer) : Prop :=
  NoDup (closed (server a))
  /\ (forall h, h ∈ closed (server a) -> h < opened (server a))
  /\ (forall h, h ∈ overwritten a -> h < opened (server a) /\ h ∉ closed (server a))
  /\ (forall w, watcher (server a) = Some w ->
                w < opened (server a) /\ (w ∉ closed (server a)) /\ w ∉ overwritten a)
  /\ (forall h, h < opened (server a) ->
                watcher (server a) = Some h \/ h ∈ closed (server a) \/ h ∈ overwritten a).

(** The times of the signals that raw events at the given times produce,
    from a timer that is idle ([None]) or pending with a due time. *)
Fixpoint signalTimes (timer : option Z) (times : list Z) : list Z :=
  match times with
  | [] => match timer with Some due => [due] | None => [] end
  | now :: rest =>
      match timer with
      | Some due =>
          if bool_decide (due <= now)%Z
          then due :: signalTimes (Some (now + COALESCE_MS)%Z) rest
          else signalTimes (Some due) rest
      | None => signalTimes (Some (now + COALESCE_MS)%Z) rest
      end
  end.

(** Depths that never rise by more than one from one row to the next,
    [previous] being the depth of the row before the first. *)
Fixpoint stepsByOne (previous : nat) (depths : list nat) : Prop :=
  match depths with
  | [] => True
  | d :: rest => d <= previous + 1 /\ stepsByOne d rest
  end.

(** ** Sample data *)

Definition sampleFile (nm : string) : FileTreeNode := mkNode file nm nm None.

Definition sampleFolder (nm : string) (cs : list FileTreeNode) : FileTreeNode :=
  mkNode folder nm nm (Some cs).

Definition sampleItem (nm : string) : VisibleNode := mkVisible (sampleFile nm) 1.

(** root / { docs / { docs/a.txt, docs/b.txt }, notes.txt, empty / {} } *)
Definition sampleTree : FileTreeNode :=
  sampleFolder "root"
    [sampleFolder "docs" [sampleFile "docs/a.txt"; sampleFile "docs/b.txt"];
     sampleFile "notes.txt";
     sampleFolder "empty" []].

Definition sampleState (expansionSet : gset string) (selection : option string)
  : ExplorerState :=
  mkExplorer (Some sampleTree) false None expansionSet selection (mkTypeahead "" 0).

(** root / { Apple, banana, Cherry, apricot }, as received over the push
    channel by a freshly mounted component. *)
Definition fruitState : ExplorerState :=
  onmessage false
    (Some (sampleFolder "root"
             [sampleFile "Apple"; sampleFile "banana"; sampleFile "Cherry";
              sampleFile "apricot"]))
    initialExplorer.

(** * Properties *)

(** ** Projection *)

Lemma visit_children_preorder (E : gset string) (d : nat) (cs : list FileTreeNode) :
  Forall (fun c => forall d' result, visit E c d' result = result ++ preorder E c d') cs ->
  forall result,
    fold_left (fun acc child => visit E child d acc) cs result
    = result ++ flat_map (fun child => preorder E child d) cs.
Proof.
  induction 1 as [|c cs Hc _ IH]; intros result; simpl.
  - by rewrite app_nil_r.
  - by rewrite Hc, IH, <- app_assoc.
Qed.

Lemma visit_preorder (E : gset string) (n : FileTreeNode) :
  forall d result, visit E n d result = result ++ preorder E n d.
Proof.
  induction n as [ty nm p cs IH] using FileTreeNode_ind; intros d result.
  simpl. destruct ty; simpl; [done|].
  destruct cs as [cs|]; simpl in *.
  - case_bool_decide; simpl; [|done].
    rewrite (visit_children_preorder E (d + 1) cs IH).
    by rewrite <- app_assoc.
  - by case_bool_decide.
Qed.

Lemma flat_map_visit (E : gset string) (d : nat) (cs : list FileTreeNode) :
  flat_map (fun child => visit E child d []) cs
  = flat_map (fun child => preorder E child d) cs.
Proof.
  induction cs as [|c cs IH]; simpl; [done|].
  by rewrite visit_preorder, IH.
Qed.

Lemma flattenTree_head (root : FileTreeNode) (E : gset string) :
  head (flattenTree root E) = Some (mkVisible root 0).
Proof. unfold flattenTree. rewrite visit_preorder. by destruct root. Qed.

(** C1. [flattenTree] returns the depth-first pre-order sequence of the
    visible nodes: it is the pre-order projection of the root at depth 0,
    its first element is the root at depth 0, and every visit contributes
    the node followed by its children's visits at depth+1 exactly when the
    node is a folder whose path is in the expansion set (so a file never
    contributes children, whatever the set holds). *)
Theorem flattenTree_preorder (root : FileTreeNode) (E : gset string) :
  flattenTree root E = preorder E root 0
  /\ head (flattenTree root E) = Some (mkVisible root 0)
  /\ (forall n d result,
        visit E n d result
        = result ++ mkVisible n d ::
            (if bool_decide (type n = folder) && bool_decide (path n ∈ E)
             then flat_map (fun child => visit E child (d + 1) []) (childrenOrEmpty n)
             else [])).
Proof.
  split; [|split].
  - unfold flattenTree. by rewrite visit_preorder.
  - apply flattenTree_head.
  - intros n d result. rewrite visit_preorder, flat_map_visit.
    destruct n as [[] nm p [cs|]]; simpl; try done; by case_bool_decide.
Qed.

(** ** File count *)

Lemma countFiles_loop (cs : list FileTreeNode) :
  Forall (fun c => countFilesWithinFolder c = length (fileDescendants c)) cs ->
  forall total,
    fold_left
      (fun total child =>
         match type child with
         | file => total + 1
         | folder => total + countFilesWithinFolder child
         end) cs total
    = total + length (filter (fun m => type m = file)
                        (flat_map (fun child => child :: descendants child) cs)).
Proof.
  induction 1 as [|c cs Hc _ IH]; intros total; simpl; [lia|].
  rewrite IH. unfold fileDescendants in Hc.
  destruct (type c) eqn:Hty.
  - assert (Hleaf : descendants c = []) by (destruct c; simpl in *; by subst).
    rewrite filter_cons_True, Hleaf by done. simpl. lia.
  - rewrite filter_cons_False by congruence.
    rewrite filter_app, length_app, Hc. lia.
Qed.

Lemma countFiles_descendants (n : FileTreeNode) :
  countFilesWithinFolder n = length (fileDescendants n).
Proof.
  induction n as [ty nm p cs IH] using FileTreeNode_ind.
  unfold fileDescendants. destruct ty, cs as [cs|]; simpl; try done.
  by rewrite (countFiles_loop cs IH 0).
Qed.

(** C7. [countFilesWithinFolder] returns the number of file-typed
    descendants of a node (none for a file, and folders are not counted);
    a folder whose [children] is missing or not an array yields 0; a folder
    holding no file and two empty folders yields 0; a folder holding three
    files and a subfolder with two files yields 5. *)
Theorem countFilesWithinFolder_counts :
  (forall n, countFilesWithinFolder n = length (fileDescendants n))
  /\ (forall nm p, countFilesWithinFolder (mkNode folder nm p None) = 0)
  /\ (forall nm p, countFilesWithinFolder (mkNode folder nm p (Some [])) = 0)
  /\ (forall nm p nm1 p1 nm2 p2,
        countFilesWithinFolder
          (mkNode folder nm p
             (Some [mkNode folder nm1 p1 (Some []); mkNode folder nm2 p2 (Some [])]))
        = 0
        /\ countFilesWithinFolder
             (mkNode folder nm p
                (Some [mkNode folder nm1 p1 None; mkNode folder nm2 p2 None]))
           = 0
        /\ countFilesWithinFolder
             (mkNode folder nm p
                (Some [mkNode folder nm1 p1 (Some [mkNode folder nm2 p2 (Some [])])]))
           = 0)
  /\ (forall nm p nm1 p1 c1 nm2 p2 c2 nm3 p3 c3 snm sp nm4 p4 c4 nm5 p5 c5,
        countFilesWithinFolder
          (mkNode folder nm p
             (Some [mkNode file nm1 p1 c1; mkNode file nm2 p2 c2;
                    mkNode file nm3 p3 c3;
                    mkNode folder snm sp
                      (Some [mkNode file nm4 p4 c4; mkNode file nm5 p5 c5])]))
        = 5).
Proof.
  split; [exact countFiles_descendants|].
  repeat split; reflexivity.
Qed.

(** ** Arrays and strings *)

Lemma findIndexFrom_first {A : Type} (pred : A -> bool) (l : list A) :
  forall k i x,
    l !! i = Some x -> pred x = true ->
    (forall j y, j < i -> l !! j = Some y -> pred y = false) ->
    findIndexFrom pred k l = (k + Z.of_nat i)%Z.
Proof.
  induction l as [|a l IH]; intros k i x Hi Hx Hbefore; [done|].
  destruct i as [|i]; simpl in *.
  - injection Hi as ->. rewrite Hx. lia.
  - rewrite (Hbefore 0 a) by (done || lia).
    rewrite (IH (k + 1)%Z i x Hi Hx); [lia|].
    intros j y Hj Hy. apply (Hbefore (S j) y); [lia|done].
Qed.

Lemma findIndexFrom_none {A : Type} (pred : A -> bool) (l : list A) :
  forall k, (forall x, x ∈ l -> pred x = false) -> findIndexFrom pred k l = (-1)%Z.
Proof.
  induction l as [|a l IH]; intros k Hall; simpl; [done|].
  rewrite (Hall a) by set_solver. apply IH. intros x Hx. apply Hall. set_solver.
Qed.

Lemma findIndexFrom_range {A : Type} (pred : A -> bool) (l : list A) :
  forall k, (0 <= k)%Z ->
    findIndexFrom pred k l = (-1)%Z
    \/ (k <= findIndexFrom pred k l < k + Z.of_nat (length l))%Z.
Proof.
  induction l as [|a l IH]; intros k Hk; simpl; [by left|].
  destruct (pred a); [right; lia|].
  destruct (IH (k + 1)%Z) as [->|?]; [lia|by left|right; lia].
Qed.

Lemma selectedIndex_range (nodes : list VisibleNode) (sel : option string) :
  (-1 <= selectedIndex nodes sel < Z.of_nat (length nodes))%Z.
Proof.
  unfold selectedIndex. destruct sel as [p|]; [|lia].
  destruct (truthy (Some p)); [|lia].
  destruct (findIndexFrom_range (fun item => bool_decide (path (node item) = p)) nodes 0)
    as [H|H]; unfold findIndex; [lia|rewrite H|]; lia.
Qed.


Lemma toLowerCase_empty (s : string) : toLowerCase s = "" <-> s = "".
Proof. destruct s; simpl; split; congruence. Qed.

Lemma find_all_false {A : Type} (f : A -> bool) (l : list A) :
  (forall x, x ∈ l -> f x = false) -> List.find f l = None.
Proof.
  induction l as [|a l IH]; intros Hall; simpl; [done|].
  rewrite (Hall a) by set_solver. apply IH. intros x Hx. apply Hall. set_solver.
Qed.


Lemma elem_of_rev {A : Type} (x : A) (l : list A) : x ∈ rev l <-> x ∈ l.
Proof. rewrite !list_elem_of_In. symmetry. apply in_rev. Qed.

(** ** Type-ahead *)

(** Reading the rotated sequence at [j] is reading the array at
    [(start + (j + 1) + total) % total]. *)
Lemma circularFrom_lookup {A : Type} (l : list A) (start : Z) (j : nat) :
  (-1 <= start < Z.of_nat (length l))%Z -> j < length l ->
  circularFrom start l !! j
  = l !! Z.to_nat (Z.rem (start + (Z.of_nat j + 1) + Z.of_nat (length l))
                     (Z.of_nat (length l))).
Proof.
  intros Hstart Hj. unfold circularFrom.
  set (a := Z.to_nat (start + 1)).
  set (total := Z.of_nat (length l)).
  destruct (decide (j < length l - a)) as [Hlt|Hge].
  - rewrite lookup_app_l by (rewrite length_drop; lia).
    rewrite lookup_drop. f_equal.
    assert (Z.rem (start + (Z.of_nat j + 1) + total) total = (start + 1 + Z.of_nat j)%Z) as ->.
    { symmetry. apply (Z.rem_unique _ _ 1%Z); lia. }
    lia.
  - rewrite lookup_app_r by (rewrite length_drop; lia).
    rewrite length_drop, lookup_take_lt by lia. f_equal.
    assert (Z.rem (start + (Z.of_nat j + 1) + total) total
            = (start + 1 + Z.of_nat j - total)%Z) as ->.
    { symmetry. apply (Z.rem_unique _ _ 2%Z); lia. }
    lia.
Qed.

Lemma circularFrom_length {A : Type} (l : list A) (start : Z) :
  length (circularFrom start l) = length l.
Proof. unfold circularFrom. rewrite length_app, length_drop, length_take. lia. Qed.

Lemma typeaheadLoop_find (normalized : string) (nodes : list VisibleNode)
    (startIndex : Z) :
  (-1 <= startIndex < Z.of_nat (length nodes))%Z ->
  forall remaining j,
    j + remaining = length nodes ->
    typeaheadLoop normalized nodes startIndex (Z.of_nat (length nodes))
      (Z.of_nat j + 1) remaining
    = List.find
        (fun item => startsWith (toLowerCase (name (node item))) normalized)
        (drop j (circularFrom startIndex nodes)).
Proof.
  intros Hstart. induction remaining as [|remaining IH]; intros j Hj.
  - rewrite drop_ge by (rewrite circularFrom_length; lia). done.
  - simpl. rewrite <- (circularFrom_lookup nodes startIndex j) by lia.
    destruct (circularFrom startIndex nodes !! j) as [candidate|] eqn:Hc.
    + rewrite (drop_S _ _ _ Hc). simpl.
      destruct (startsWith _ _); [done|].
      replace (Z.of_nat j + 1 + 1)%Z with (Z.of_nat (S j) + 1)%Z by lia.
      apply IH. lia.
    + apply lookup_ge_None in Hc. rewrite circularFrom_length in Hc. lia.
Qed.

Lemma findTypeaheadMatch_find (query : string) (nodes : list VisibleNode)
    (sel : option string) :
  trim query <> "" ->
  findTypeaheadMatch query nodes sel
  = List.find (nameStartsWith (trim query))
      (circularFrom (selectedIndex nodes sel) nodes).
Proof.
  intros Hq. unfold findTypeaheadMatch.
  rewrite bool_decide_eq_false_2 by (by rewrite toLowerCase_empty).
  case_bool_decide as Hlen; simpl.
  - apply nil_length_inv in Hlen. subst nodes. unfold circularFrom.
    by rewrite drop_nil, take_nil.
  - rewrite (typeaheadLoop_find _ nodes _ (selectedIndex_range nodes sel)
               (length nodes) 0) by lia.
    by rewrite drop_0.
Qed.




(** Typing "a" selects "Apple"; "p" typed 100 ms later extends the buffer
    to "ap" and selects "apricot"; "a" typed after the buffer has expired,
    with "Cherry" selected, selects "apricot", the next match in circular
    order. *)
Example typeahead_walkthrough :
  selectedPath (handleTreeKeyDown "a" 5000 fruitState) = Some "Apple"
  /\ selectedPath
       (handleTreeKeyDown "p" 5100 (handleTreeKeyDown "a" 5000 fruitState))
     = Some "apricot"
  /\ buffer (typeaheadState
               (handleTreeKeyDown "p" 5100 (handleTreeKeyDown "a" 5000 fruitState)))
     = "ap"
  /\ selectedPath
       (handleTreeKeyDown "a" 9000 (setSelectedPath (Some "Cherry") fruitState))
     = Some "apricot".
Proof. repeat split; reflexivity. Qed.

(** ** Moving the selection *)

Lemma moveSelection_no_index (nodes : list VisibleNode) (sel : option string)
    (delta : Z) :
  nodes <> [] -> selectedIndex nodes sel = (-1)%Z ->
  moveSelection nodes sel delta
  = (fun item => path (node item))
      <$> (if bool_decide (0 < delta)%Z then head nodes else last nodes).
Proof.
  intros Hne Hidx. unfold moveSelection.
  rewrite bool_decide_eq_false_2 by (by intros ?%nil_length_inv).
  rewrite Hidx, bool_decide_eq_true_2 by done.
  case_bool_decide.
  - destruct nodes; [done|]. reflexivity.
  - rewrite last_lookup.
    replace (Z.to_nat (Z.of_nat (length nodes) - 1)) with (pred (length nodes)) by lia.
    destruct (nodes !! pred (length nodes)) eqn:Hlast; [done|].
    apply lookup_ge_None in Hlast. destruct nodes; [done|simpl in *; lia].
Qed.

Lemma moveSelection_at_index (nodes : list VisibleNode) (p : string) (i : nat)
    (item : VisibleNode) (delta : Z) :
  selectedIndex nodes (Some p) = Z.of_nat i ->
  nodes !! i = Some item -> path (node item) = p ->
  exists target,
    nodes !! Z.to_nat (Z.min (Z.max (Z.of_nat i + delta) 0)
                         (Z.of_nat (length nodes) - 1)) = Some target
    /\ moveSelection nodes (Some p) delta = Some (path (node target)).
Proof.
  intros Hidx Hi Hp.
  pose proof (lookup_lt_Some _ _ _ Hi) as Hlen.
  unfold moveSelection.
  rewrite bool_decide_eq_false_2 by lia.
  rewrite Hidx, bool_decide_eq_false_2 by lia.
  set (next := Z.min _ _).
  destruct (nodes !! Z.to_nat next) as [target|] eqn:Hnext.
  - exists target. split; [done|].
    case_bool_decide as Hsame; [done|].
    rewrite Hsame, Nat2Z.id in Hnext.
    congruence.
  - apply lookup_ge_None in Hnext. lia.
Qed.

Lemma selectedIndex_first (nodes : list VisibleNode) (p : string) (i : nat)
    (item : VisibleNode) :
  p <> "" -> nodes !! i = Some item -> path (node item) = p ->
  (forall j other, j < i -> nodes !! j = Some other -> path (node other) <> p) ->
  selectedIndex nodes (Some p) = Z.of_nat i.
Proof.
  intros Hp Hi Hitem Hfirst. simpl.
  rewrite bool_decide_eq_false_2 by done. simpl.
  unfold findIndex.
  rewrite (findIndexFrom_first _ nodes 0 i item Hi); [lia|by apply bool_decide_eq_true_2|].
  intros j other Hj Hother. apply bool_decide_eq_false_2. by apply (Hfirst j).
Qed.

Lemma selectedIndex_absent (nodes : list VisibleNode) (p : string) :
  (forall item, item ∈ nodes -> path (node item) <> p) ->
  selectedIndex nodes (Some p) = (-1)%Z.
Proof.
  intros Habsent. simpl. destruct (negb _); [|done].
  apply findIndexFrom_none. intros item Hitem.
  apply bool_decide_eq_false_2. by apply Habsent.
Qed.

(** C3. On a non-empty visible sequence, Move-down with no selection
    selects the first node and Move-up the last; when the node at index [i]
    is the selected one (its path is the selected path, and [i] is the
    first index with that path), Move-down selects the node at index
    [min (i+1) (length-1)] and Move-up the node at index [max (i-1) 0], so
    that Move-down on the last node and Move-up on the first one leave the
    selection as it is.  ArrowDown and ArrowUp are these moves. *)
Theorem moveSelection_clamped (nodes : list VisibleNode) :
  nodes <> [] ->
  (exists first, head nodes = Some first
                 /\ moveSelection nodes None 1 = Some (path (node first)))
  /\ (exists final, last nodes = Some final
                    /\ moveSelection nodes None (-1) = Some (path (node final)))
  /\ (forall p i item,
        p <> "" -> nodes !! i = Some item -> path (node item) = p ->
        (forall j other, j < i -> nodes !! j = Some other -> path (node other) <> p) ->
        (exists down, nodes !! Nat.min (i + 1) (length nodes - 1) = Some down
                      /\ moveSelection nodes (Some p) 1 = Some (path (node down)))
        /\ (exists up, nodes !! (i - 1) = Some up
                       /\ moveSelection nodes (Some p) (-1) = Some (path (node up)))
        /\ (i = length nodes - 1 -> moveSelection nodes (Some p) 1 = Some p)
        /\ (i = 0 -> moveSelection nodes (Some p) (-1) = Some p))
  /\ (forall s now,
        visibleNodes s = nodes ->
        handleTreeKeyDown "ArrowDown" now s
        = setSelectedPath (moveSelection nodes (selectedPath s) 1) s
        /\ handleTreeKeyDown "ArrowUp" now s
           = setSelectedPath (moveSelection nodes (selectedPath s) (-1)) s).
Proof.
  intros Hne.
  assert (Hdown : forall p i item,
             selectedIndex nodes (Some p) = Z.of_nat i ->
             nodes !! i = Some item -> path (node item) = p ->
             exists down, nodes !! Nat.min (i + 1) (length nodes - 1) = Some down
                          /\ moveSelection nodes (Some p) 1 = Some (path (node down))).
  { intros p i item Hidx Hi Hp.
    pose proof (lookup_lt_Some _ _ _ Hi).
    destruct (moveSelection_at_index nodes p i item 1 Hidx Hi Hp) as (t & Ht & Hmove).
    exists t. split; [|done]. rewrite <- Ht. f_equal. lia. }
  assert (Hup : forall p i item,
             selectedIndex nodes (Some p) = Z.of_nat i ->
             nodes !! i = Some item -> path (node item) = p ->
             exists up, nodes !! (i - 1) = Some up
                        /\ moveSelection nodes (Some p) (-1) = Some (path (node up))).
  { intros p i item Hidx Hi Hp.
    pose proof (lookup_lt_Some _ _ _ Hi).
    destruct (moveSelection_at_index nodes p i item (-1) Hidx Hi Hp) as (t & Ht & Hmove).
    exists t. split; [|done]. rewrite <- Ht. f_equal. lia. }
  split; [|split; [|split]].
  - rewrite (moveSelection_no_index nodes None 1 Hne eq_refl).
    rewrite bool_decide_eq_true_2 by lia.
    destruct nodes as [|first rest]; [done|]. by exists first.
  - rewrite (moveSelection_no_index nodes None (-1) Hne eq_refl).
    rewrite bool_decide_eq_false_2 by lia.
    destruct (last nodes) as [final|] eqn:Hlast; [by exists final|].
    by apply last_None in Hlast.
  - intros p i item Hp Hi Hitem Hfirst.
    pose proof (selectedIndex_first nodes p i item Hp Hi Hitem Hfirst) as Hidx.
    split; [by apply (Hdown p i item)|].
    split; [by apply (Hup p i item)|].
    split; intros ->.
    + destruct (Hdown p _ item Hidx Hi Hitem) as (t & Ht & ->).
      replace (Nat.min _ _) with (length nodes - 1) in Ht by lia.
      congruence.
    + destruct (Hup p _ item Hidx Hi Hitem) as (t & Ht & ->).
      simpl in Ht. congruence.
  - by intros s now <-.
Qed.

(** On [A; B; C] with B selected, Move-down selects C and a second
    Move-down stays on C. *)
Lemma moveSelection_clamped_witness :
  moveSelection [sampleItem "A"; sampleItem "B"; sampleItem "C"] (Some "B") 1
  = Some "C"
  /\ moveSelection [sampleItem "A"; sampleItem "B"; sampleItem "C"] (Some "C") 1
     = Some "C"
  /\ moveSelection [sampleItem "A"; sampleItem "B"; sampleItem "C"] None (-1)
     = Some "C".
Proof.
  destruct (moveSelection_clamped
              [sampleItem "A"; sampleItem "B"; sampleItem "C"])
    as (_ & (final & Hfinal & Hlast) & Hsel & _); [discriminate|].
  assert (HB : forall j other, j < 1 ->
               [sampleItem "A"; sampleItem "B"; sampleItem "C"] !! j = Some other ->
               path (node other) <> "B").
  { intros j other Hj Hlook. destruct j as [|j]; [|lia].
    injection Hlook as <-. discriminate. }
  assert (HC : forall j other, j < 2 ->
               [sampleItem "A"; sampleItem "B"; sampleItem "C"] !! j = Some other ->
               path (node other) <> "C").
  { intros j other Hj Hlook. destruct j as [|[|j]]; [| |lia];
      injection Hlook as <-; discriminate. }
  destruct (Hsel "B" 1 (sampleItem "B")) as ((down & Hdown & HmoveB) & _);
    [discriminate|reflexivity|reflexivity|exact HB|].
  destruct (Hsel "C" 2 (sampleItem "C")) as (_ & _ & HmoveC & _);
    [discriminate|reflexivity|reflexivity|exact HC|].
  split; [|split].
  - rewrite HmoveB. injection Hdown as <-. reflexivity.
  - apply HmoveC. reflexivity.
  - rewrite Hlast. injection Hfinal as <-. reflexivity.
Defined.

(** C10. On a non-empty visible sequence, a selected path that does not
    occur in the sequence is treated by movement like no selection:
    Move-down selects the first visible node and Move-up the last. *)
Theorem moveSelection_hidden (nodes : list VisibleNode) (p : string) :
  nodes <> [] ->
  (forall item, item ∈ nodes -> path (node item) <> p) ->
  (exists first, head nodes = Some first
                 /\ moveSelection nodes (Some p) 1 = Some (path (node first)))
  /\ (exists final, last nodes = Some final
                    /\ moveSelection nodes (Some p) (-1) = Some (path (node final)))
  /\ moveSelection nodes (Some p) 1 = moveSelection nodes None 1
  /\ moveSelection nodes (Some p) (-1) = moveSelection nodes None (-1).
Proof.
  intros Hne Habsent.
  pose proof (selectedIndex_absent nodes p Habsent) as Hidx.
  rewrite !(moveSelection_no_index nodes (Some p) _ Hne Hidx).
  rewrite !(moveSelection_no_index nodes None _ Hne eq_refl).
  rewrite bool_decide_eq_true_2, bool_decide_eq_false_2 by lia.
  split; [|split; [|done]].
  - destruct nodes as [|first rest]; [done|]. by exists first.
  - destruct (last nodes) as [final|] eqn:Hlast; [by exists final|].
    by apply last_None in Hlast.
Qed.

(** With only the root expanded, "docs/b.txt" exists in the tree but is
    hidden inside the collapsed folder "docs": ArrowDown goes to the first
    visible node and ArrowUp to the last. *)
Lemma moveSelection_hidden_witness :
  findNodeByPath (Some sampleTree) (Some "docs/b.txt")
  = Some (sampleFile "docs/b.txt")
  /\ selectedPath
       (handleTreeKeyDown "ArrowDown" 0 (sampleState {["root"]} (Some "docs/b.txt")))
     = Some "root"
  /\ selectedPath
       (handleTreeKeyDown "ArrowUp" 0 (sampleState {["root"]} (Some "docs/b.txt")))
     = Some "empty".
Proof.
  destruct (moveSelection_hidden
              (visibleNodes (sampleState {["root"]} (Some "docs/b.txt")))
              "docs/b.txt")
    as ((first & Hfirst & Hdown) & (final & Hfinal & Hup) & _).
  - discriminate.
  - intros item Hitem. vm_compute in Hitem.
    repeat (apply elem_of_cons in Hitem as [->|Hitem]; [discriminate|]).
    by apply elem_of_nil in Hitem.
  - split; [reflexivity|]. split.
    + change (moveSelection
                (visibleNodes (sampleState {["root"]} (Some "docs/b.txt")))
                (Some "docs/b.txt") 1 = Some "root").
      rewrite Hdown. injection Hfirst as <-. reflexivity.
    + change (moveSelection
                (visibleNodes (sampleState {["root"]} (Some "docs/b.txt")))
                (Some "docs/b.txt") (-1) = Some "empty").
      rewrite Hup. vm_compute in Hfinal. injection Hfinal as <-. reflexivity.
Defined.

(** ** Lookup by path *)

Lemma under_step (c par n : FileTreeNode) (cs : list FileTreeNode) :
  under c par -> type par = folder -> children par = Some cs -> n ∈ cs ->
  under c n.
Proof.
  induction 1 as [c|c cs' c' par' Hty Hch Hin _ IH]; intros Hfolder Hcs Hn.
  - eapply under_child; eauto using under_self.
  - eapply under_child; eauto.
Qed.

(** One iteration of each loop, read off the definitions. *)
Lemma searchStack_step (p : string) (current : FileTreeNode)
    (rest : list FileTreeNode) :
  searchStack p (current :: rest)
  = if bool_decide (path current = p) then Some current
    else
      match type current, children current with
      | folder, Some cs => searchStack p (rev cs ++ rest)
      | _, _ => searchStack p rest
      end.
Proof.
  destruct current as [ty nm pth ch]. simp searchStack. simpl.
  destruct (bool_decide (pth = p)); simpl; [done|].
  by destruct ty, ch.
Qed.

Lemma searchParentStack_step (p : string) (current : FileTreeNode)
    (parentPath : string) (rest : list (FileTreeNode * string)) :
  searchParentStack p ((current, parentPath) :: rest)
  = if bool_decide (path current = p) then Some parentPath
    else
      match type current, children current with
      | folder, Some cs =>
          searchParentStack p
            (rev (map (fun child => (child, path current)) cs) ++ rest)
      | _, _ => searchParentStack p rest
      end.
Proof.
  destruct current as [ty nm pth ch]. simp searchParentStack. simpl.
  destruct (bool_decide (pth = p)); simpl; [done|].
  by destruct ty, ch.
Qed.

Lemma searchStack_sound (p : string) (stack : list FileTreeNode) (n : FileTreeNode) :
  searchStack p stack = Some n ->
  path n = p /\ exists c, c ∈ stack /\ under c n.
Proof.
  funelim (searchStack p stack); intros Hfound.
  - done.
  - injection Hfound as <-. apply bool_decide_eq_true_1 in Heq.
    split; [done|]. eexists. split; [apply elem_of_cons; by left|apply under_self].
  - destruct (H n Hfound) as (Hp & c & Hc & Hun).
    split; [done|]. exists c. split; [apply elem_of_cons; by right|done].
  - destruct (H n Hfound) as (Hp & c & Hc & Hun).
    split; [done|]. apply elem_of_app in Hc as [Hc|Hc].
    + eexists. split; [apply elem_of_cons; by left|].
      eapply under_child; [done|done| |exact Hun].
      by apply elem_of_rev.
    + exists c. split; [apply elem_of_cons; by right|done].
  - destruct (H n Hfound) as (Hp & c & Hc & Hun).
    split; [done|]. exists c. split; [apply elem_of_cons; by right|done].
Qed.

Lemma searchStack_complete (p : string) (stack : list FileTreeNode) :
  searchStack p stack = None ->
  forall c n, c ∈ stack -> under c n -> path n <> p.
Proof.
  funelim (searchStack p stack); intros Hnone c n Hc Hun;
    try apply bool_decide_eq_false in Heq.
  - by apply elem_of_nil in Hc.
  - done.
  - apply elem_of_cons in Hc as [->|Hc]; [|by apply (H Hnone c n)].
    inversion Hun; subst; simpl in *; done.
  - apply elem_of_cons in Hc as [->|Hc].
    + inversion Hun as [|? cs' c' ? Hty Hch Hin Hun']; subst; simpl in *; [done|].
      injection Hch as <-.
      apply (H Hnone c' n); [|done].
      apply elem_of_app. left. by apply elem_of_rev.
    + apply (H Hnone c n); [|done]. apply elem_of_app. by right.
  - apply elem_of_cons in Hc as [->|Hc]; [|by apply (H Hnone c n)].
    inversion Hun; subst; simpl in *; done.
Qed.

Lemma findNodeByPath_sound (root n : FileTreeNode) (p : option string) :
  findNodeByPath (Some root) p = Some n ->
  p = Some (path n) /\ path n <> "" /\ inSnapshot root n.
Proof.
  destruct p as [p|]; [|done]. simpl.
  case_bool_decide as Hempty; simpl; [done|].
  case_bool_decide as Hroot.
  - intros [= <-]. subst p. repeat split; [done|by left].
  - intros (Hp & c & Hc & Hun)%searchStack_sound. subst p.
    repeat split; [done|]. right. exists c. split; [|done].
    unfold childrenOrEmpty. destruct (children root); [by apply elem_of_rev|done].
Qed.

Lemma findNodeByPath_complete (root : FileTreeNode) (p : string) :
  findNodeByPath (Some root) (Some p) = None ->
  p <> "" ->
  forall n, inSnapshot root n -> path n <> p.
Proof.
  simpl. intros Hnone Hp n Hn.
  rewrite bool_decide_eq_false_2 in Hnone by done. simpl in Hnone.
  case_bool_decide as Hroot; [done|].
  destruct Hn as [->|(c & Hc & Hun)]; [done|].
  apply (searchStack_complete p _ Hnone c n); [|done].
  unfold childrenOrEmpty in Hc.
  destruct (children root); [by apply elem_of_rev|by apply elem_of_nil in Hc].
Qed.

Lemma elem_of_map {A B : Type} (f : A -> B) (l : list A) (y : B) :
  y ∈ map f l <-> exists x, y = f x /\ x ∈ l.
Proof.
  rewrite list_elem_of_In, in_map_iff. split.
  - intros (x & <- & Hx). exists x. by rewrite list_elem_of_In.
  - intros (x & -> & Hx). exists x. by rewrite <- list_elem_of_In.
Qed.

Lemma map_fst_pair {A B : Type} (b : B) (l : list A) :
  map fst (map (fun a => (a, b)) l) = l.
Proof. induction l as [|a l IH]; simpl; [done|by rewrite IH]. Qed.

Lemma parentEntry_children (root current : FileTreeNode) (parentPath : string)
    (cs : list FileTreeNode) (e : FileTreeNode * string) :
  parentEntry root (current, parentPath) ->
  type current = folder -> children current = Some cs ->
  e ∈ map (fun child => (child, path current)) cs ->
  parentEntry root e.
Proof.
  intros (par0 & [Hin Hpar0] & _) Hty Hch (c' & -> & Hc')%elem_of_map.
  simpl in Hin. exists current. split; [|done]. split.
  - unfold childrenOrEmpty. by rewrite Hch.
  - right. split; [done|].
    destruct Hpar0 as [->|(Hty0 & c0 & Hc0 & Hun0)].
    + exists current. split; [done|apply under_self].
    + exists c0. split; [done|]. unfold childrenOrEmpty in Hin.
      destruct (children par0) as [cs0|] eqn:Hcs0; [|by apply elem_of_nil in Hin].
      by apply (under_step c0 par0 current cs0).
Qed.

Lemma searchParentStack_parent (root : FileTreeNode) (p : string)
    (stack : list (FileTreeNode * string)) :
  Forall (parentEntry root) stack ->
  forall n,
    searchStack p (map fst stack) = Some n ->
    exists par, parentIn root par n /\ searchParentStack p stack = Some (path par).
Proof.
  funelim (searchParentStack p stack); intros Hok n Hfound; simpl in Hfound;
    try (rewrite searchStack_step in Hfound; simpl in Hfound;
         rewrite ?Heq in Hfound).
  - by simp searchStack in Hfound.
  - injection Hfound as <-.
    apply Forall_cons in Hok as [(par & Hpar & Hpath) _]. simpl in *.
    exists par. by subst.
  - apply Forall_cons in Hok as [_ Hok]. by apply H.
  - apply Forall_cons in Hok as [Hcur Hok].
    apply H; [|by rewrite map_app, map_rev, map_fst_pair].
    apply Forall_app. split; [|done].
    apply Forall_forall. intros e He. apply (proj1 (elem_of_rev _ _)) in He.
    apply (parentEntry_children root _ parentPath cs e Hcur);
      [reflexivity|reflexivity|exact He].
  - apply Forall_cons in Hok as [_ Hok]. by apply H.
Qed.

Lemma findParentPath_parent (root n : FileTreeNode) (p : string) :
  findNodeByPath (Some root) (Some p) = Some n -> n <> root ->
  exists par,
    parentIn root par n /\ findParentPath (Some root) (Some p) = Some (path par).
Proof.
  simpl. destruct (negb (bool_decide (p = ""))); simpl; [|done].
  case_bool_decide as Hroot; [by intros [= <-]|].
  intros Hfound _.
  apply (searchParentStack_parent root p); last first.
  - destruct (children root) as [cs|]; simpl; [|done].
    by rewrite map_rev, map_fst_pair.
  - apply Forall_forall. intros e He. destruct (children root) as [cs|] eqn:Hcs.
    + apply (proj1 (elem_of_rev _ _)), elem_of_map in He as (c & -> & Hc).
      exists root. split; [|done]. split; [|by left].
      unfold childrenOrEmpty. by rewrite Hcs.
    + by apply elem_of_nil in He.
Qed.

(** *** Unique paths: the parent is determined by the path of the child *)

Lemma elem_of_flat_map {A B : Type} (f : A -> list B) (l : list A) (y : B) :
  y ∈ flat_map f l <-> exists x, x ∈ l /\ y ∈ f x.
Proof.
  rewrite list_elem_of_In, in_flat_map. split.
  - intros (x & Hx & Hy). exists x. by rewrite !list_elem_of_In.
  - intros (x & Hx & Hy). exists x. by rewrite <- !list_elem_of_In.
Qed.

Lemma descendants_folder (n : FileTreeNode) (cs : list FileTreeNode) :
  type n = folder -> children n = Some cs ->
  descendants n = flat_map (fun c => c :: descendants c) cs.
Proof. destruct n as [ty nm p ch]. simpl. by intros -> ->. Qed.

Lemma under_descendants (c par x : FileTreeNode) (cs : list FileTreeNode) :
  under c par -> type par = folder -> children par = Some cs -> x ∈ cs ->
  x ∈ descendants c.
Proof.
  induction 1 as [c|c cs' c' par Hty Hch Hin _ IH]; intros Hfolder Hcs Hx.
  - rewrite (descendants_folder c cs) by done.
    apply elem_of_flat_map. exists x. split; [done|]. apply elem_of_cons. by left.
  - rewrite (descendants_folder c cs') by done.
    apply elem_of_flat_map. exists c'. split; [done|].
    apply elem_of_cons. right. by apply IH.
Qed.

Lemma under_subtree (c n : FileTreeNode) :
  under c n <-> n ∈ c :: descendants c.
Proof.
  split.
  - induction 1 as [c|c cs c' n Hty Hch Hin _ IH]; [apply elem_of_cons; by left|].
    apply elem_of_cons. right. rewrite (descendants_folder c cs) by done.
    apply elem_of_flat_map. by exists c'.
  - revert n. induction c as [ty nm p ch IH] using FileTreeNode_ind.
    intros n [->|Hn]%elem_of_cons; [apply under_self|].
    destruct ty, ch as [cs|]; simpl in Hn; try by apply elem_of_nil in Hn.
    apply elem_of_flat_map in Hn as (c' & Hc' & Hn).
    simpl in IH. rewrite Forall_forall in IH.
    eapply under_child; [reflexivity|reflexivity|exact Hc'|by apply IH].
Qed.

(** The two descriptions of the nodes of a snapshot agree. *)
Lemma inSnapshot_snapshotNodes (root n : FileTreeNode) :
  inSnapshot root n <-> n ∈ snapshotNodes root.
Proof.
  unfold inSnapshot, snapshotNodes. rewrite elem_of_cons, elem_of_flat_map.
  split; (intros [->|(c & Hc & Hn)]; [by left|right; exists c; split; [done|]]);
    by apply under_subtree.
Qed.

Lemma NoDup_paths_segment (cs : list FileTreeNode) (c : FileTreeNode) :
  NoDup (map path (flat_map (fun c => c :: descendants c) cs)) -> c ∈ cs ->
  NoDup (map path (c :: descendants c)).
Proof.
  induction cs as [|e cs IH]; intros Hnodup Hc; [by apply elem_of_nil in Hc|].
  simpl in Hnodup.
  change (path e :: map path (descendants e ++ flat_map (fun c => c :: descendants c) cs))
    with (map path ((e :: descendants e) ++ flat_map (fun c => c :: descendants c) cs))
    in Hnodup.
  rewrite map_app in Hnodup. apply NoDup_app in Hnodup as (Hhead & _ & Htail).
  apply elem_of_cons in Hc as [->|Hc]; [done|by apply IH].
Qed.

Lemma NoDup_paths_same_segment (cs : list FileTreeNode) (c1 c2 y1 y2 : FileTreeNode) :
  NoDup (map path (flat_map (fun c => c :: descendants c) cs)) ->
  c1 ∈ cs -> c2 ∈ cs ->
  y1 ∈ c1 :: descendants c1 -> y2 ∈ c2 :: descendants c2 ->
  path y1 = path y2 -> c1 = c2.
Proof.
  induction cs as [|e cs IH]; intros Hnodup Hc1 Hc2 Hy1 Hy2 Hpath;
    [by apply elem_of_nil in Hc1|].
  simpl in Hnodup.
  change (path e :: map path (descendants e ++ flat_map (fun c => c :: descendants c) cs))
    with (map path ((e :: descendants e) ++ flat_map (fun c => c :: descendants c) cs))
    in Hnodup.
  rewrite map_app in Hnodup. apply NoDup_app in Hnodup as (_ & Hdisjoint & Htail).
  assert (Hin : forall c y, c ∈ cs -> y ∈ c :: descendants c ->
                            path y ∈ map path (flat_map (fun c => c :: descendants c) cs)).
  { intros c y Hc Hy. apply elem_of_map. exists y. split; [done|].
    apply elem_of_flat_map. by exists c. }
  assert (Hhere : forall y, y ∈ e :: descendants e -> path y ∈ map path (e :: descendants e)).
  { intros y Hy. apply elem_of_map. by exists y. }
  apply elem_of_cons in Hc1 as [->|Hc1]; apply elem_of_cons in Hc2 as [->|Hc2].
  - done.
  - destruct (Hdisjoint (path y1)); [by apply Hhere|].
    rewrite Hpath. by apply (Hin c2).
  - destruct (Hdisjoint (path y2)); [by apply Hhere|].
    rewrite <- Hpath. by apply (Hin c1).
  - by apply IH.
Qed.

Lemma NoDup_paths_not_below (c x : FileTreeNode) :
  NoDup (map path (c :: descendants c)) -> x ∈ descendants c -> path x <> path c.
Proof.
  simpl. intros [Hhead _]%NoDup_cons Hx Hpath. apply Hhead.
  apply elem_of_map. by exists x.
Qed.

Lemma under_parent_unique (t : FileTreeNode) :
  NoDup (map path (t :: descendants t)) ->
  forall par1 par2 cs1 cs2 x1 x2,
    under t par1 -> under t par2 ->
    type par1 = folder -> children par1 = Some cs1 -> x1 ∈ cs1 ->
    type par2 = folder -> children par2 = Some cs2 -> x2 ∈ cs2 ->
    path x1 = path x2 -> par1 = par2.
Proof.
  induction t as [ty nm p ch IH] using FileTreeNode_ind.
  intros Hnodup par1 par2 cs1 cs2 x1 x2 Hun1 Hun2 Hty1 Hch1 Hx1 Hty2 Hch2 Hx2 Hpath.
  set (t := mkNode ty nm p ch) in *.
  assert (Hbelow : forall cs, type t = folder -> children t = Some cs ->
            NoDup (map path (flat_map (fun c => c :: descendants c) cs))).
  { intros cs Hty Hch. rewrite <- (descendants_folder t cs) by done.
    simpl in Hnodup. by apply NoDup_cons in Hnodup as [_ ?]. }
  assert (Hmixed : forall par cs c cs' x x',
            type t = folder -> children t = Some cs -> x ∈ cs ->
            c ∈ cs -> under c par -> type par = folder ->
            children par = Some cs' -> x' ∈ cs' -> path x = path x' -> False).
  { intros par cs c cs' x x' Hty Hch Hx Hc Hun Htyp Hchp Hx' Heq.
    pose proof (under_descendants c par x' cs' Hun Htyp Hchp Hx') as Hdesc.
    assert (x = c) as ->.
    { apply (NoDup_paths_same_segment cs x c x x'); try done.
      - by apply Hbelow.
      - apply elem_of_cons. by left.
      - apply elem_of_cons. by right. }
    apply (NoDup_paths_not_below c x'); [|done|done].
    apply (NoDup_paths_segment cs); [by apply Hbelow|done]. }
  inversion Hun1 as [|? cs c1 ? Hty Hch Hc1 Hun1']; subst;
    inversion Hun2 as [|? cs' c2 ? Hty' Hch' Hc2 Hun2']; subst.
  - done.
  - destruct (Hmixed par2 cs1 c2 cs2 x1 x2); try done. congruence.
  - destruct (Hmixed par1 cs2 c1 cs1 x2 x1); try done. congruence.
  - assert (cs' = cs) as -> by congruence.
    pose proof (under_descendants c1 par1 x1 cs1 Hun1' Hty1 Hch1 Hx1) as Hd1.
    pose proof (under_descendants c2 par2 x2 cs2 Hun2' Hty2 Hch2 Hx2) as Hd2.
    assert (c1 = c2) as <-.
    { apply (NoDup_paths_same_segment cs c1 c2 x1 x2); try done.
      - by apply Hbelow.
      - apply elem_of_cons. by right.
      - apply elem_of_cons. by right. }
    assert (Hch0 : ch = Some cs) by done. subst ch. simpl in IH.
    rewrite Forall_forall in IH.
    apply (IH c1 Hc1) with (cs1 := cs1) (cs2 := cs2) (x1 := x1) (x2 := x2); try done.
    apply (NoDup_paths_segment cs); [by apply Hbelow|done].
Qed.

Lemma parentIn_unique (root par1 par2 x1 x2 : FileTreeNode) :
  uniquePaths root ->
  parentIn root par1 x1 -> parentIn root par2 x2 -> path x1 = path x2 ->
  par1 = par2.
Proof.
  unfold uniquePaths, snapshotNodes. simpl.
  intros [_ Hnodup]%NoDup_cons [Hx1 Hpar1] [Hx2 Hpar2] Hpath.
  assert (Hmixed : forall par c x x',
            x ∈ childrenOrEmpty root -> c ∈ childrenOrEmpty root ->
            under c par -> type par = folder -> x' ∈ childrenOrEmpty par ->
            path x = path x' -> False).
  { intros par c x x' Hx Hc Hun Hty Hx' Heq.
    unfold childrenOrEmpty in Hx'.
    destruct (children par) as [cs'|] eqn:Hch; [|by apply elem_of_nil in Hx'].
    pose proof (under_descendants c par x' cs' Hun Hty Hch Hx') as Hdesc.
    assert (x = c) as ->.
    { apply (NoDup_paths_same_segment (childrenOrEmpty root) x c x x'); try done.
      - apply elem_of_cons. by left.
      - apply elem_of_cons. by right. }
    apply (NoDup_paths_not_below c x'); [|done|done].
    by apply (NoDup_paths_segment (childrenOrEmpty root)). }
  destruct Hpar1 as [->|(Hty1 & c1 & Hc1 & Hun1)];
    destruct Hpar2 as [->|(Hty2 & c2 & Hc2 & Hun2)].
  - done.
  - by destruct (Hmixed par2 c2 x1 x2).
  - by destruct (Hmixed par1 c1 x2 x1).
  - unfold childrenOrEmpty in Hx1, Hx2.
    destruct (children par1) as [cs1|] eqn:Hch1; [|by apply elem_of_nil in Hx1].
    destruct (children par2) as [cs2|] eqn:Hch2; [|by apply elem_of_nil in Hx2].
    pose proof (under_descendants c1 par1 x1 cs1 Hun1 Hty1 Hch1 Hx1) as Hd1.
    pose proof (under_descendants c2 par2 x2 cs2 Hun2 Hty2 Hch2 Hx2) as Hd2.
    assert (c1 = c2) as <-.
    { apply (NoDup_paths_same_segment (childrenOrEmpty root) c1 c2 x1 x2); try done.
      - apply elem_of_cons. by right.
      - apply elem_of_cons. by right. }
    apply (under_parent_unique c1) with (cs1 := cs1) (cs2 := cs2) (x1 := x1) (x2 := x2);
      try done.
    by apply (NoDup_paths_segment (childrenOrEmpty root)).
Qed.

(** ** Navigation transitions *)

Lemma selectedNode_sound (s : ExplorerState) (n : FileTreeNode) :
  selectedNode s = Some n ->
  exists root,
    tree s = Some root /\ selectedPath s = Some (path n) /\ path n <> ""
    /\ inSnapshot root n.
Proof.
  unfold selectedNode. destruct (tree s) as [root|]; [|done].
  intros (Hsel & Hne & Hin)%findNodeByPath_sound. by exists root.
Qed.

(** C4. ArrowRight: when the selected node is a collapsed folder, its path
    is added to the expansion set and the selection stays; when it is an
    expanded folder with at least one child, the selection moves to the
    first child and the expansion set stays; when nothing is selected, the
    first visible node (the root of the tree) becomes selected. *)
Theorem arrowRight_transition (s : ExplorerState) (now : Z) :
  (forall n,
      selectedNode s = Some n -> type n = folder -> path n ∉ expanded s ->
      expanded (handleTreeKeyDown "ArrowRight" now s) = {[path n]} ∪ expanded s
      /\ selectedPath (handleTreeKeyDown "ArrowRight" now s) = selectedPath s
      /\ selectedPath s = Some (path n)
      /\ tree (handleTreeKeyDown "ArrowRight" now s) = tree s)
  /\ (forall n firstChild others,
        selectedNode s = Some n -> type n = folder -> path n ∈ expanded s ->
        children n = Some (firstChild :: others) ->
        selectedPath (handleTreeKeyDown "ArrowRight" now s) = Some (path firstChild)
        /\ expanded (handleTreeKeyDown "ArrowRight" now s) = expanded s
        /\ tree (handleTreeKeyDown "ArrowRight" now s) = tree s)
  /\ (selectedPath s = None ->
      forall first,
        head (visibleNodes s) = Some first ->
        selectedPath (handleTreeKeyDown "ArrowRight" now s) = Some (path (node first))
        /\ (exists root, tree s = Some root /\ first = mkVisible root 0)
        /\ expanded (handleTreeKeyDown "ArrowRight" now s) = expanded s
        /\ tree (handleTreeKeyDown "ArrowRight" now s) = tree s).
Proof.
  change (handleTreeKeyDown "ArrowRight" now s) with (arrowRight s).
  unfold arrowRight. split; [|split].
  - intros n Hn Hty Hcollapsed. rewrite Hn, Hty.
    rewrite bool_decide_eq_false_2 by done. simpl.
    destruct (selectedNode_sound s n Hn) as (root & _ & Hsel & _). done.
  - intros n firstChild others Hn Hty Hexp Hch. rewrite Hn, Hty, Hch.
    rewrite bool_decide_eq_true_2 by done. done.
  - intros Hsel first Hfirst. unfold selectedNode. rewrite Hsel.
    replace (findNodeByPath (tree s) None) with (@None FileTreeNode)
      by (by destruct (tree s)).
    assert (Hroot : exists root, tree s = Some root /\ first = mkVisible root 0).
    { unfold visibleNodes in Hfirst. destruct (tree s) as [root|]; [|done].
      exists root. split; [done|].
      pose proof (flattenTree_head root (expanded s)). congruence. }
    destruct (visibleNodes s) as [|first' rest]; [done|].
    injection Hfirst as ->. done.
Qed.

(** On the sample tree: ArrowRight on the collapsed folder "docs" expands
    it, a second ArrowRight moves to its first child, and ArrowRight with
    no selection selects the root. *)
Lemma arrowRight_transition_witness :
  expanded (handleTreeKeyDown "ArrowRight" 0 (sampleState {["root"]} (Some "docs")))
  = {["docs"]} ∪ {["root"]}
  /\ selectedPath
       (handleTreeKeyDown "ArrowRight" 0 (sampleState {["root"; "docs"]} (Some "docs")))
     = Some "docs/a.txt"
  /\ selectedPath (handleTreeKeyDown "ArrowRight" 0 (sampleState {["root"]} None))
     = Some "root".
Proof.
  split; [|split].
  - destruct (arrowRight_transition (sampleState {["root"]} (Some "docs")) 0)
      as (Hexpand & _ & _).
    destruct (Hexpand (sampleFolder "docs"
                         [sampleFile "docs/a.txt"; sampleFile "docs/b.txt"]))
      as (Heq & _); [reflexivity|reflexivity|by vm_compute|exact Heq].
  - destruct (arrowRight_transition (sampleState {["root"; "docs"]} (Some "docs")) 0)
      as (_ & Hdescend & _).
    destruct (Hdescend (sampleFolder "docs"
                          [sampleFile "docs/a.txt"; sampleFile "docs/b.txt"])
                (sampleFile "docs/a.txt") [sampleFile "docs/b.txt"])
      as (Heq & _); [reflexivity|reflexivity|by vm_compute|reflexivity|exact Heq].
  - destruct (arrowRight_transition (sampleState {["root"]} None) 0)
      as (_ & _ & Hnone).
    destruct (Hnone eq_refl (mkVisible sampleTree 0)) as (Heq & _);
      [reflexivity|exact Heq].
Defined.

(** C5. ArrowLeft with a selected node: an expanded folder is collapsed
    (its path leaves the expansion set, the selection stays); on a
    collapsed folder or a file the transition does nothing when the
    selected node is the root, and otherwise moves the selection to the
    path of a node of the current snapshot that has the selected node among
    its children (the only such node when paths are unique in the
    snapshot), provided that path is not the empty string. *)
Theorem arrowLeft_transition (s : ExplorerState) (now : Z) (n : FileTreeNode) :
  selectedNode s = Some n ->
  (type n = folder -> path n ∈ expanded s ->
   expanded (handleTreeKeyDown "ArrowLeft" now s) = expanded s ∖ {[path n]}
   /\ selectedPath (handleTreeKeyDown "ArrowLeft" now s) = selectedPath s
   /\ tree (handleTreeKeyDown "ArrowLeft" now s) = tree s)
  /\ (type n = file \/ path n ∉ expanded s ->
      exists root,
        tree s = Some root
        /\ (n = root -> handleTreeKeyDown "ArrowLeft" now s = s)
        /\ (n <> root ->
            exists par,
              parentIn root par n
              /\ (uniquePaths root ->
                  forall par', parentIn root par' n -> par' = par)
              /\ (path par <> "" ->
                  selectedPath (handleTreeKeyDown "ArrowLeft" now s) = Some (path par)
                  /\ expanded (handleTreeKeyDown "ArrowLeft" now s) = expanded s
                  /\ tree (handleTreeKeyDown "ArrowLeft" now s) = tree s))).
Proof.
  intros Hn.
  change (handleTreeKeyDown "ArrowLeft" now s) with (arrowLeft s).
  unfold arrowLeft. rewrite Hn.
  destruct (selectedNode_sound s n Hn) as (root & Htree & Hsel & Hne & Hin).
  split.
  - intros Hty Hexp. by rewrite !bool_decide_eq_true_2 by done.
  - intros Hcase.
    assert (bool_decide (type n = folder) && bool_decide (path n ∈ expanded s)
            = false) as ->.
    { destruct Hcase as [Hfile|Hcollapsed].
      - rewrite bool_decide_eq_false_2; [done|]. by rewrite Hfile.
      - rewrite (bool_decide_eq_false_2 (path n ∈ expanded s)) by done.
        apply andb_false_r. }
    exists root. split; [done|]. rewrite Htree, Hsel. split.
    + intros Hroot. subst n. simpl.
      rewrite (bool_decide_eq_true_2 (path root = path root)) by done.
      by rewrite orb_true_r.
    + intros Hnotroot. unfold selectedNode in Hn. rewrite Htree, Hsel in Hn.
      destruct (findParentPath_parent root n (path n) Hn Hnotroot)
        as (par & Hpar & Hfound).
      exists par. split; [done|]. split.
      * intros Hunique par' Hpar'.
        by apply (parentIn_unique root par' par n n).
      * intros Hparne. rewrite Hfound. simpl.
        by rewrite bool_decide_eq_false_2 by done.
Qed.

(** On the sample tree, whose paths are unique: ArrowLeft on the expanded
    folder "docs" collapses it; ArrowLeft on the file "docs/a.txt" selects
    its parent "docs"; ArrowLeft on the collapsed root does nothing. *)
Lemma arrowLeft_transition_witness :
  expanded (handleTreeKeyDown "ArrowLeft" 0 (sampleState {["root"; "docs"]} (Some "docs")))
  = ({["root"; "docs"]} : gset string) ∖ {["docs"]}
  /\ selectedPath
       (handleTreeKeyDown "ArrowLeft" 0
          (sampleState {["root"; "docs"]} (Some "docs/a.txt")))
     = Some "docs"
  /\ handleTreeKeyDown "ArrowLeft" 0 (sampleState ∅ (Some "root"))
     = sampleState ∅ (Some "root").
Proof.
  split; [|split].
  - destruct (arrowLeft_transition (sampleState {["root"; "docs"]} (Some "docs")) 0
                (sampleFolder "docs" [sampleFile "docs/a.txt"; sampleFile "docs/b.txt"])
                eq_refl) as (Hcollapse & _).
    destruct Hcollapse as (Heq & _); [reflexivity|by vm_compute|exact Heq].
  - destruct (arrowLeft_transition
                (sampleState {["root"; "docs"]} (Some "docs/a.txt")) 0
                (sampleFile "docs/a.txt") eq_refl) as (_ & Hparent).
    destruct Hparent as (root & Hroot & _ & Hmove); [by left|].
    injection Hroot as <-.
    destruct Hmove as (par & Hpar & Honly & Hsel); [discriminate|].
    assert (Hdocs : sampleFolder "docs"
                      [sampleFile "docs/a.txt"; sampleFile "docs/b.txt"] = par).
    { apply Honly.
      - apply (bool_decide_unpack _). by vm_compute.
      - split; [apply elem_of_cons; by left|].
        right. split; [reflexivity|].
        eexists. split; [apply elem_of_cons; by left|apply under_self]. }
    subst par. destruct Hsel as (Heq & _); [discriminate|exact Heq].
  - destruct (arrowLeft_transition (sampleState ∅ (Some "root")) 0 sampleTree eq_refl)
      as (_ & Hparent).
    destruct Hparent as (root & Hroot & Hnoop & _); [right; by vm_compute|].
    injection Hroot as <-. by apply Hnoop.
Defined.

(** ** Snapshot replacement *)

(** C6. A snapshot delivered over the push channel replaces the tree and
    leaves the expansion set as it is; nothing selected stays nothing
    selected; a selected (non-empty) path is kept when some node of the new
    snapshot has that path, and the selection becomes [null] when none
    has. *)
Theorem onmessage_selection (s : ExplorerState) (payload : FileTreeNode) :
  tree (onmessage false (Some payload) s) = Some payload
  /\ expanded (onmessage false (Some payload) s) = expanded s
  /\ (selectedPath s = None ->
      selectedPath (onmessage false (Some payload) s) = None)
  /\ (forall p,
        selectedPath s = Some p -> p <> "" ->
        ((exists n, inSnapshot payload n /\ path n = p) ->
         selectedPath (onmessage false (Some payload) s) = Some p)
        /\ (~ (exists n, inSnapshot payload n /\ path n = p) ->
            selectedPath (onmessage false (Some payload) s) = None)).
Proof.
  split; [done|]. split; [done|]. split.
  - intros Hsel. simpl. by rewrite Hsel.
  - intros p Hsel Hp. unfold onmessage. cbn [selectedPath]. rewrite Hsel.
    change (truthy (Some p)) with (negb (bool_decide (p = ""))).
    rewrite (bool_decide_eq_false_2 (p = "")) by done. cbn [negb].
    destruct (findNodeByPath (Some payload) (Some p)) as [n|] eqn:Hfind.
    + split; [done|]. intros Hnone. destruct Hnone.
      apply findNodeByPath_sound in Hfind as (Hpath & _ & Hin).
      exists n. split; [done|congruence].
    + split; [|done]. intros (n & Hin & Hpath).
      by destruct (findNodeByPath_complete payload p Hfind Hp n Hin).
Qed.

(** A new snapshot in which "notes.txt" is still present keeps that
    selection; one from which "docs" and its files are gone clears the
    selection "docs/a.txt". *)
Lemma onmessage_selection_witness :
  selectedPath
    (onmessage false (Some sampleTree) (sampleState {["root"]} (Some "notes.txt")))
  = Some "notes.txt"
  /\ selectedPath
       (onmessage false (Some (sampleFolder "root" [sampleFile "notes.txt"]))
          (sampleState {["root"; "docs"]} (Some "docs/a.txt")))
     = None.
Proof.
  split.
  - destruct (onmessage_selection (sampleState {["root"]} (Some "notes.txt")) sampleTree)
      as (_ & _ & _ & Hsel).
    destruct (Hsel "notes.txt") as (Hkept & _); [reflexivity|discriminate|].
    apply Hkept. exists (sampleFile "notes.txt"). split; [|reflexivity].
    right. exists (sampleFile "notes.txt"). split; [|apply under_self].
    apply elem_of_cons. right. apply elem_of_cons. by left.
  - destruct (onmessage_selection
                (sampleState {["root"; "docs"]} (Some "docs/a.txt"))
                (sampleFolder "root" [sampleFile "notes.txt"]))
      as (_ & _ & _ & Hsel).
    destruct (Hsel "docs/a.txt") as (_ & Hcleared); [reflexivity|discriminate|].
    apply Hcleared. intros (n & [->|(c & Hc & Hun)] & Hpath); [discriminate|].
    apply elem_of_cons in Hc as [->|Hc]; [|by apply elem_of_nil in Hc].
    inversion Hun; subst; discriminate.
Defined.

(** ** Shared watcher *)

Lemma removeListener_single (cb : nat) : removeListener cb [cb] = [].
Proof.
  simpl. by rewrite bool_decide_eq_true_2.
Qed.

Lemma subscribe_invariant (cb : nat) (s : ServerState) :
  is_Some (watcher (subscribe cb s)) /\ listeners (subscribe cb s) <> [].
Proof.
  unfold subscribe, ensureWatcher. split.
  - destruct (watcher s) eqn:Hw; simpl; [by rewrite Hw|done].
  - destruct (watcher s); simpl; by intros ?%app_nil_r_inv.
Qed.

Lemma unsubscribe_invariant (cb : nat) (s : ServerState) :
  (is_Some (watcher s) <-> listeners s <> []) ->
  (is_Some (watcher (unsubscribe cb s)) <-> listeners (unsubscribe cb s) <> []).
Proof.
  intros Hinv. unfold unsubscribe. simpl.
  case_bool_decide as Hlen.
  - apply nil_length_inv in Hlen. unfold stopWatcher. simpl.
    destruct (watcher s); simpl; rewrite Hlen; split; try done;
      by intros ?%is_Some_None.
  - simpl. assert (removeListener cb (listeners s) <> []) as Hleft
      by (by intros Heq; rewrite Heq in Hlen).
    split; [done|]. intros _. apply Hinv. intros Hnil.
    by rewrite Hnil in Hleft.
Qed.

Lemma reachable_invariant (s : ServerState) :
  reachable s -> (is_Some (watcher s) <-> listeners s <> []).
Proof.
  induction 1 as [|s [cb|cb] _ IH]; simpl.
  - split; [by intros ?%is_Some_None|done].
  - by destruct (subscribe_invariant cb s).
  - by apply unsubscribe_invariant.
Qed.

(** No handle is lost: every handle opened so far is the one currently
    held or has been closed. *)
Lemma reachable_no_leak (s : ServerState) :
  reachable s ->
  forall h, h < opened s -> watcher s = Some h \/ h ∈ closed s.
Proof.
  induction 1 as [|s [cb|cb] _ IH]; simpl; intros h Hh.
  - simpl in Hh. lia.
  - unfold subscribe, ensureWatcher in *.
    destruct (watcher s) as [w|] eqn:Hw; simpl in *.
    + rewrite Hw. by apply IH.
    + destruct (decide (h = opened s)) as [->|Hne]; [by left|].
      destruct (IH h) as [?|?]; [lia|done|by right].
  - unfold unsubscribe, stopWatcher in *. simpl in *.
    case_bool_decide; simpl in *; [|by apply IH].
    destruct (watcher s) as [w|] eqn:Hw; simpl in *.
    + right. destruct (IH h Hh) as [[= ->]|?]; set_solver.
    + by apply IH.
Qed.

(** Calls that do not overlap.  In every state reached by subscribe and
    unsubscribe calls of which each has finished before the next starts, a
    watch handle is held exactly when at least one listener is registered;
    a subscription arriving when none is registered opens a new handle,
    one arriving later shares the handle already held; the unsubscription
    of the only listener closes the handle and clears it; and a
    subscription after that opens a new handle again. *)
Lemma watcher_lifetime (s : ServerState) :
  reachable s ->
  (is_Some (watcher s) <-> listeners s <> [])
  /\ (forall cb,
        listeners s = [] ->
        watcher (subscribe cb s) = Some (opened s)
        /\ opened (subscribe cb s) = S (opened s)
        /\ closed (subscribe cb s) = closed s)
  /\ (forall cb,
        listeners s <> [] ->
        watcher (subscribe cb s) = watcher s
        /\ opened (subscribe cb s) = opened s)
  /\ (forall cb,
        listeners s = [cb] ->
        exists w,
          watcher s = Some w
          /\ watcher (unsubscribe cb s) = None
          /\ listeners (unsubscribe cb s) = []
          /\ closed (unsubscribe cb s) = closed s ++ [w]
          /\ forall cb',
               watcher (subscribe cb' (unsubscribe cb s)) = Some (opened s)
               /\ Some (opened s) <> Some w
               /\ listeners (subscribe cb' (unsubscribe cb s)) = [cb']).
Proof.
  intros Hreach.
  pose proof (reachable_invariant s Hreach) as Hinv.
  assert (Hfresh : forall w, watcher s = Some w -> w < opened s).
  { clear Hinv. induction Hreach as [|s [cb|cb] _ IH]; simpl; [done| |].
    - unfold subscribe, ensureWatcher. intros w.
      destruct (watcher s) as [w'|] eqn:Hw; simpl.
      + rewrite Hw. intros [= <-]. by apply IH.
      + intros [= <-]. lia.
    - unfold unsubscribe, stopWatcher. simpl. intros w.
      case_bool_decide; simpl; [|apply IH].
      destruct (watcher s); simpl; [done|]. rewrite ?H. done. }
  split; [done|]. split; [|split].
  - intros cb Hnil. unfold subscribe, ensureWatcher.
    destruct (watcher s) as [w|] eqn:Hw; simpl; [|done].
    destruct (proj1 Hinv); [by eexists|done].
  - intros cb Hne. unfold subscribe, ensureWatcher.
    destruct (proj2 Hinv Hne) as [w Hw]. rewrite Hw. simpl. by rewrite Hw.
  - intros cb Hone.
    destruct (proj2 Hinv) as [w Hw]; [by rewrite Hone|].
    exists w. unfold unsubscribe, subscribe, ensureWatcher, stopWatcher. simpl.
    rewrite Hone, removeListener_single. simpl. rewrite Hw. simpl.
    repeat split; try done.
    intros [= Heq]. specialize (Hfresh w Hw). lia.
Qed.

(** Two subscribers come and go, then a third one arrives: the first
    handle is closed when the last of the two leaves and a second handle is
    opened for the third. *)
Lemma watcher_lifetime_witness :
  reachable (step (Unsubscribe 1) (step (Subscribe 2) (step (Subscribe 1) initialServer)))
  /\ watcher (step (Unsubscribe 1) (step (Subscribe 2) (step (Subscribe 1) initialServer)))
     = Some 0
  /\ watcher
       (unsubscribe 2
          (step (Unsubscribe 1) (step (Subscribe 2) (step (Subscribe 1) initialServer))))
     = None
  /\ watcher
       (subscribe 3
          (unsubscribe 2
             (step (Unsubscribe 1)
                (step (Subscribe 2) (step (Subscribe 1) initialServer)))))
     = Some 1.
Proof.
  assert (Hreach : reachable
            (step (Unsubscribe 1)
               (step (Subscribe 2) (step (Subscribe 1) initialServer))))
    by (repeat apply reachable_step; apply reachable_initial).
  destruct (watcher_lifetime _ Hreach) as (_ & _ & _ & Hlast).
  destruct (Hlast 2 eq_refl) as (w & Hw & Hnone & _ & _ & Hagain).
  split; [exact Hreach|]. split; [reflexivity|]. split; [exact Hnone|].
  destruct (Hagain 3) as (Hopen & _). exact Hopen.
Defined.

Lemma filter_resumed (cb : nat) : filter (fun c => c <> cb) [cb] = [].
Proof. rewrite filter_cons_False by (intros H; by apply H). apply filter_nil. Qed.

(** A call between whose pieces nothing else runs is [subscribe]. *)
Lemma wholeCall_subscribe (cb : nat) (a : AsyncServer) :
  awaitingTree a = [] -> awaitingWatcher a = [] ->
  asyncRun (wholeCall cb) a = mkAsync (subscribe cb (server a)) [] [] (overwritten a).
Proof.
  destruct a as [s tree0 watcher0 lost]. simpl. intros -> ->.
  unfold subscribe, ensureWatcher, addListener, openWatcher, heldHandle.
  destruct (watcher s) as [w|] eqn:Hw; simpl.
  - rewrite bool_decide_eq_true_2 by set_solver. simpl.
    by rewrite filter_resumed.
  - rewrite (bool_decide_eq_true_2 (cb ∈ [cb])) by set_solver. simpl.
    rewrite (bool_decide_eq_true_2 (cb ∈ [cb])) by set_solver. simpl.
    by rewrite Hw, !filter_resumed, app_nil_r.
Qed.

(** C9, the code against the claim.  Two clients connect together: both
    calls of [subscribeToFileTreeChanges] test [watcher] before either has
    assigned it, so both are suspended at [await ensureTreeOnDisk()], and
    each then opens a watcher of its own.  With both callbacks registered,
    two handles are open instead of one shared handle: handle 1 is the one
    held and handle 0 was replaced.  When both clients have left, no
    callback is registered and [watcher] is cleared, but only handle 1 was
    closed: handle 0 is still open, and nothing refers to it any more.
    The same two clients connecting one after the other share handle 0,
    which is closed when they have left. *)
Theorem overlapping_subscriptions_leak :
  awaitingTree (asyncRun [CallStarts 1; CallStarts 2] initialAsync) = [1; 2]
  /\ watcher (server (asyncRun [CallStarts 1; CallStarts 2] initialAsync)) = None
  /\ listeners (server (asyncRun overlappingCalls initialAsync)) = [1; 2]
  /\ watcher (server (asyncRun overlappingCalls initialAsync)) = Some 1
  /\ openHandles (server (asyncRun overlappingCalls initialAsync)) = [0; 1]
  /\ overwritten (asyncRun overlappingCalls initialAsync) = [0]
  /\ listeners (server (asyncRun (overlappingCalls ++ bothLeave) initialAsync)) = []
  /\ watcher (server (asyncRun (overlappingCalls ++ bothLeave) initialAsync)) = None
  /\ opened (server (asyncRun (overlappingCalls ++ bothLeave) initialAsync)) = 2
  /\ closed (server (asyncRun (overlappingCalls ++ bothLeave) initialAsync)) = [1]
  /\ openHandles (server (asyncRun (overlappingCalls ++ bothLeave) initialAsync)) = [0]
  /\ openHandles (server (asyncRun (wholeCall 1 ++ wholeCall 2) initialAsync)) = [0]
  /\ openHandles
       (server (asyncRun (wholeCall 1 ++ wholeCall 2 ++ bothLeave) initialAsync))
     = [].
Proof. repeat (split; [reflexivity|]). reflexivity. Qed.

(** ** Coalescing timer *)

Lemma rawEvent_pending (due now : Z) (s : ServerState) :
  debounceTimer s = Some due -> (now < due)%Z -> rawEvent now s = s.
Proof.
  intros Htimer Hnow. unfold rawEvent, runTimers, scheduleEmit.
  rewrite Htimer, bool_decide_eq_false_2 by lia. by rewrite Htimer.
Qed.

Lemma rawEvents_pending (due : Z) (times : list Z) (s : ServerState) :
  debounceTimer s = Some due -> Forall (fun now => (now < due)%Z) times ->
  rawEvents times s = s.
Proof.
  intros Htimer. induction 1 as [|now times Hnow _ IH]; simpl; [done|].
  by rewrite (rawEvent_pending due now s).
Qed.

Lemma rawEvent_idle (now : Z) (s : ServerState) :
  debounceTimer s = None ->
  debounceTimer (rawEvent now s) = Some (now + COALESCE_MS)%Z
  /\ emitted (rawEvent now s) = emitted s.
Proof.
  intros Htimer. unfold rawEvent, runTimers, scheduleEmit.
  by rewrite !Htimer.
Qed.

Lemma rawEvent_due (due now : Z) (s : ServerState) :
  debounceTimer s = Some due -> (due <= now)%Z ->
  debounceTimer (rawEvent now s) = Some (now + COALESCE_MS)%Z
  /\ emitted (rawEvent now s) = emitted s ++ [due].
Proof.
  intros Htimer Hdue. unfold rawEvent, runTimers, scheduleEmit.
  by rewrite Htimer, bool_decide_eq_true_2 by lia.
Qed.

Lemma rawEvents_spaced (times : list Z) :
  forall previous s,
    debounceTimer s = Some (previous + COALESCE_MS)%Z ->
    spacedApart (previous :: times) ->
    emitted (settle (rawEvents times s))
    = emitted s ++ map (fun t => (t + COALESCE_MS)%Z) (previous :: times).
Proof.
  induction times as [|now times IH]; intros previous s Htimer Hspaced.
  - unfold settle. simpl. by rewrite Htimer.
  - destruct Hspaced as [Hgap Hspaced]. simpl rawEvents.
    destruct (rawEvent_due (previous + COALESCE_MS) now s Htimer) as [Hnext Hemit];
      [lia|].
    rewrite (IH now (rawEvent now s) Hnext Hspaced), Hemit.
    by rewrite <- app_assoc.
Qed.

(** C8. Starting with no timeout pending: a burst of raw events whose
    times all lie within the quiet period after the first one yields
    exactly one signal, [COALESCE_MS] after the first event, the later
    events leaving the pending timeout as it is; raw events that each come
    more than [COALESCE_MS] after the one before yield one signal each,
    [COALESCE_MS] after the event. *)
Theorem scheduleEmit_coalesces (s : ServerState) :
  debounceTimer s = None ->
  (forall first later,
      Forall (fun now => (first <= now < first + COALESCE_MS)%Z) later ->
      rawEvents (first :: later) s = rawEvent first s
      /\ debounceTimer (rawEvents (first :: later) s) = Some (first + COALESCE_MS)%Z
      /\ emitted (rawEvents (first :: later) s) = emitted s
      /\ emitted (settle (rawEvents (first :: later) s))
         = emitted s ++ [(first + COALESCE_MS)%Z])
  /\ (forall times,
        spacedApart times ->
        emitted (settle (rawEvents times s))
        = emitted s ++ map (fun t => (t + COALESCE_MS)%Z) times
        /\ length (emitted (settle (rawEvents times s)))
           = length (emitted s) + length times).
Proof.
  intros Hidle. split.
  - intros first later Hburst.
    destruct (rawEvent_idle first s Hidle) as [Htimer Hemit].
    assert (Hsame : rawEvents (first :: later) s = rawEvent first s).
    { simpl. apply (rawEvents_pending (first + COALESCE_MS)); [done|].
      eapply Forall_impl; [exact Hburst|]. simpl. lia. }
    rewrite Hsame. repeat split; try done.
    unfold settle. by rewrite Htimer, <- Hemit.
  - intros times Hspaced.
    assert (Hemit : emitted (settle (rawEvents times s))
                    = emitted s ++ map (fun t => (t + COALESCE_MS)%Z) times).
    { destruct times as [|first times].
      - unfold settle. simpl. by rewrite Hidle, app_nil_r.
      - destruct (rawEvent_idle first s Hidle) as [Htimer Hemit].
        simpl rawEvents.
        by rewrite (rawEvents_spaced times first _ Htimer Hspaced), Hemit. }
    split; [done|]. by rewrite Hemit, length_app, length_map.
Qed.

(** Four raw events within 60 ms give one signal, 75 ms after the first;
    three raw events 100 ms apart give three signals. *)
Lemma scheduleEmit_coalesces_witness :
  emitted (settle (rawEvents [1000; 1010; 1030; 1060]%Z initialServer))
  = [1075%Z]
  /\ emitted (settle (rawEvents [1000; 1100; 1200]%Z initialServer))
     = [1075; 1175; 1275]%Z.
Proof.
  destruct (scheduleEmit_coalesces initialServer eq_refl) as (Hburst & Hspaced).
  split.
  - destruct (Hburst 1000%Z [1010; 1030; 1060]%Z) as (_ & _ & _ & Hone).
    + repeat (apply Forall_cons; split; [unfold COALESCE_MS; lia|]).
      apply Forall_nil. done.
    + exact Hone.
  - destruct (Hspaced [1000; 1100; 1200]%Z) as (Hall & _).
    + simpl. unfold COALESCE_MS. lia.
    + exact Hall.
Defined.

(** * Further properties *)

Local Set Warnings "-clear-no-such-hyp".

(** ** Projection and the snapshot *)

Lemma sublist_map {A B : Type} (f : A -> B) (l k : list A) :
  l `sublist_of` k -> map f l `sublist_of` map f k.
Proof.
  induction 1; simpl; [constructor|by apply sublist_skip|by apply sublist_cons].
Qed.

Lemma sublist_flat_map {A B : Type} (f g : A -> list B) (l : list A) :
  Forall (fun x => f x `sublist_of` g x) l ->
  flat_map f l `sublist_of` flat_map g l.
Proof.
  induction 1 as [|x l Hx _ IH]; simpl; [constructor|by apply sublist_app].
Qed.

Lemma map_flat_map {A B C : Type} (f : B -> C) (g : A -> list B) (l : list A) :
  map f (flat_map g l) = flat_map (fun x => map f (g x)) l.
Proof.
  induction l as [|x l IH]; simpl; [done|]. by rewrite map_app, IH.
Qed.

Lemma flat_map_ext_Forall {A B : Type} (f g : A -> list B) (l : list A) :
  Forall (fun x => f x = g x) l -> flat_map f l = flat_map g l.
Proof. induction 1 as [|x l Hx _ IH]; simpl; [done|]. by rewrite Hx, IH. Qed.

Lemma preorder_rows_sublist (E : gset string) (n : FileTreeNode) :
  forall d, map node (preorder E n d) `sublist_of` n :: descendants n.
Proof.
  induction n as [ty nm p ch IH] using FileTreeNode_ind. intros d. simpl.
  apply sublist_skip. destruct ty, ch as [cs|]; simpl; try constructor.
  case_bool_decide; [|apply sublist_nil_l].
  rewrite map_flat_map. apply sublist_flat_map.
  simpl in IH. eapply Forall_impl; [exact IH|]. simpl. intros c Hc. apply Hc.
Qed.

Lemma flattenTree_rows_sublist (root : FileTreeNode) (E : gset string) :
  map node (flattenTree root E) `sublist_of` snapshotNodes root.
Proof.
  unfold flattenTree, snapshotNodes. rewrite visit_preorder. simpl app.
  destruct root as [ty nm p [cs|]]; destruct ty; unfold childrenOrEmpty; simpl;
    apply sublist_skip; try apply sublist_nil_l.
  case_bool_decide; [|apply sublist_nil_l].
  rewrite map_flat_map. apply sublist_flat_map.
  apply Forall_forall. intros c _. apply preorder_rows_sublist.
Qed.

Lemma visible_inSnapshot (root : FileTreeNode) (E : gset string) (item : VisibleNode) :
  item ∈ flattenTree root E -> inSnapshot root (node item).
Proof.
  intros Hitem. apply inSnapshot_snapshotNodes.
  eapply elem_of_sublist; [|apply flattenTree_rows_sublist].
  apply elem_of_map. by exists item.
Qed.

(** X1. The rows of the projection are nodes of the snapshot, in the
    order of the snapshot and without repetition of a position: the
    sequence of their nodes is a subsequence of the nodes of the snapshot.
    When paths are unique in the snapshot, no two rows have the same path
    (the path is the key of a row). *)
Theorem flattenTree_rows_of_snapshot (root : FileTreeNode) (E : gset string) :
  map node (flattenTree root E) `sublist_of` snapshotNodes root
  /\ (forall item, item ∈ flattenTree root E -> inSnapshot root (node item))
  /\ (uniquePaths root ->
      NoDup (map (fun item => path (node item)) (flattenTree root E))).
Proof.
  split; [apply flattenTree_rows_sublist|]. split; [apply visible_inSnapshot|].
  intros Hunique. rewrite <- (map_map node path).
  apply (sublist_NoDup _ (map path (snapshotNodes root))); [exact Hunique|].
  apply sublist_map, flattenTree_rows_sublist.
Qed.

(** The rows of the sample tree have pairwise different paths. *)
Lemma flattenTree_rows_of_snapshot_witness :
  NoDup (map (fun item => path (node item))
           (flattenTree sampleTree {["root"; "docs"]})).
Proof.
  destruct (flattenTree_rows_of_snapshot sampleTree {["root"; "docs"]})
    as (_ & _ & Hkeys).
  apply Hkeys. apply (bool_decide_unpack _). by vm_compute.
Defined.

Lemma preorder_monotone (E E' : gset string) (n : FileTreeNode) :
  E ⊆ E' -> forall d, preorder E n d `sublist_of` preorder E' n d.
Proof.
  intros Hsub. induction n as [ty nm p ch IH] using FileTreeNode_ind.
  intros d. simpl. apply sublist_skip.
  destruct ty, ch as [cs|]; simpl; try constructor.
  case_bool_decide as HE; [|apply sublist_nil_l].
  rewrite bool_decide_eq_true_2 by set_solver.
  apply sublist_flat_map. simpl in IH.
  eapply Forall_impl; [exact IH|]. simpl. intros c Hc. apply Hc.
Qed.

(** X2. Expanding more folders only adds rows: when one expansion set is
    included in another, the projection under the first is a subsequence
    of the projection under the second (no row disappears, none changes
    depth or order). *)
Theorem flattenTree_monotone (root : FileTreeNode) (E E' : gset string) :
  E ⊆ E' -> flattenTree root E `sublist_of` flattenTree root E'.
Proof.
  intros Hsub. unfold flattenTree. rewrite !visit_preorder. simpl.
  by apply preorder_monotone.
Qed.

Lemma flattenTree_monotone_witness :
  flattenTree sampleTree {["root"]}
  `sublist_of` flattenTree sampleTree {["root"; "docs"]}.
Proof. apply flattenTree_monotone. set_solver. Defined.

Lemma preorder_agree (E E' : gset string) (n : FileTreeNode) :
  (forall m, m ∈ n :: descendants n -> type m = folder ->
             (path m ∈ E <-> path m ∈ E')) ->
  forall d, preorder E n d = preorder E' n d.
Proof.
  induction n as [ty nm p ch IH] using FileTreeNode_ind.
  intros Hagree d. simpl. f_equal.
  destruct ty, ch as [cs|]; simpl; try done.
  assert (Hself : p ∈ E <-> p ∈ E').
  { apply (Hagree (mkNode folder nm p (Some cs))); [apply elem_of_cons; by left|done]. }
  rewrite (bool_decide_ext _ _ Hself). case_bool_decide; [|done].
  apply flat_map_ext_Forall. simpl in IH. rewrite Forall_forall in IH |- *.
  intros c Hc. apply IH; [done|].
  intros m Hm Hty. apply Hagree; [|done].
  apply elem_of_cons. right. simpl. apply elem_of_flat_map. by exists c.
Qed.

(** X3. Entries of the expansion set that are not the path of a folder of
    the snapshot are inert: two expansion sets that agree on the paths of
    the folders of the tree give the same projection. *)
Theorem flattenTree_inert_entries (root : FileTreeNode) (E E' : gset string) :
  (forall m, m ∈ root :: descendants root -> type m = folder ->
             (path m ∈ E <-> path m ∈ E')) ->
  flattenTree root E = flattenTree root E'.
Proof.
  intros Hagree. unfold flattenTree. rewrite !visit_preorder. simpl.
  by apply preorder_agree.
Qed.

(** A path left over from an earlier snapshot ("old") and the path of a
    file change nothing. *)
Lemma flattenTree_inert_entries_witness :
  flattenTree sampleTree {["root"; "old"; "notes.txt"]}
  = flattenTree sampleTree {["root"]}.
Proof.
  apply flattenTree_inert_entries. intros m Hm Hty.
  vm_compute in Hm.
  repeat (apply elem_of_cons in Hm as [->|Hm];
          [first [discriminate Hty | by vm_compute]|]).
  by apply elem_of_nil in Hm.
Defined.

Lemma preorder_all_expanded (E : gset string) (n : FileTreeNode) :
  allExpanded E n -> forall d, map node (preorder E n d) = n :: descendants n.
Proof.
  induction n as [ty nm p ch IH] using FileTreeNode_ind.
  intros Hall d. simpl. f_equal.
  destruct ty, ch as [cs|]; simpl; try done.
  rewrite bool_decide_eq_true_2
    by (apply (Hall (mkNode folder nm p (Some cs))); [apply elem_of_cons; by left|done]).
  rewrite map_flat_map. apply flat_map_ext_Forall.
  simpl in IH. rewrite Forall_forall in IH |- *.
  intros c Hc. apply IH; [done|].
  intros m Hm Hty. apply Hall; [|done].
  apply elem_of_cons. right. simpl. apply elem_of_flat_map. by exists c.
Qed.

(** X4. When the path of every folder of the tree is in the expansion set,
    the projection shows the whole tree: its rows are the root followed by
    all its descendants, and the file count of the root is the number of
    rows below the root that are files. *)
Theorem flattenTree_all_expanded (root : FileTreeNode) (E : gset string) :
  allExpanded E root ->
  map node (flattenTree root E) = root :: descendants root
  /\ countFilesWithinFolder root
     = length (filter (fun item => type (node item) = file)
                 (tail (flattenTree root E))).
Proof.
  intros Hall.
  assert (Hrows : map node (flattenTree root E) = root :: descendants root).
  { unfold flattenTree. rewrite visit_preorder. simpl app.
    by apply preorder_all_expanded. }
  split; [done|]. rewrite countFiles_descendants. unfold fileDescendants.
  destruct (flattenTree root E) as [|first rows]; [done|].
  simpl in Hrows. injection Hrows as _ <-. simpl.
  clear. induction rows as [|item rows IH]; simpl; [done|].
  destruct (decide (type (node item) = file)) as [Hf|Hf].
  - rewrite !filter_cons_True by done. simpl. by rewrite IH.
  - by rewrite !filter_cons_False by done.
Qed.

Lemma flattenTree_all_expanded_witness :
  map node (flattenTree sampleTree {["root"; "docs"; "empty"]})
  = sampleTree :: descendants sampleTree
  /\ countFilesWithinFolder sampleTree = 3.
Proof.
  destruct (flattenTree_all_expanded sampleTree {["root"; "docs"; "empty"]})
    as (Hrows & Hcount).
  - intros m Hm Hty. vm_compute in Hm.
    repeat (apply elem_of_cons in Hm as [->|Hm];
            [first [discriminate Hty | by vm_compute]|]).
    by apply elem_of_nil in Hm.
  - split; [exact Hrows|]. rewrite Hcount. reflexivity.
Defined.

(** ** Lookup by path, continued *)

Lemma NoDup_map_elem_inj {A B : Type} (f : A -> B) (l : list A) (x y : A) :
  NoDup (map f l) -> x ∈ l -> y ∈ l -> f x = f y -> x = y.
Proof.
  induction l as [|a l IH]; intros Hnodup Hx Hy Heq; [by apply elem_of_nil in Hx|].
  simpl in Hnodup. apply NoDup_cons in Hnodup as [Hhead Htail].
  apply elem_of_cons in Hx as [->|Hx]; apply elem_of_cons in Hy as [->|Hy].
  - done.
  - destruct Hhead. rewrite Heq. apply elem_of_map. by exists y.
  - destruct Hhead. rewrite <- Heq. apply elem_of_map. by exists x.
  - by apply IH.
Qed.

Lemma findNodeByPath_resolves (root n : FileTreeNode) :
  inSnapshot root n -> path n <> "" ->
  is_Some (findNodeByPath (Some root) (Some (path n))).
Proof.
  intros Hin Hne.
  destruct (findNodeByPath (Some root) (Some (path n))) as [n'|] eqn:Hfind;
    [by eexists|].
  by destruct (findNodeByPath_complete root (path n) Hfind Hne n Hin).
Qed.

(** X5. Looking up the path of a node returns that node: when paths are
    unique in the snapshot, [findNodeByPath] applied to the non-empty path
    of a node of the snapshot returns this very node. *)
Theorem findNodeByPath_round_trip (root n : FileTreeNode) :
  uniquePaths root -> inSnapshot root n -> path n <> "" ->
  findNodeByPath (Some root) (Some (path n)) = Some n.
Proof.
  intros Hunique Hin Hne.
  destruct (findNodeByPath_resolves root n Hin Hne) as [n' Hfind].
  rewrite Hfind. f_equal.
  apply findNodeByPath_sound in Hfind as ([= Hpath] & _ & Hin').
  apply (NoDup_map_elem_inj path (snapshotNodes root)); try done;
    by apply inSnapshot_snapshotNodes.
Qed.

Lemma findNodeByPath_round_trip_witness :
  findNodeByPath (Some sampleTree) (Some "docs/b.txt")
  = Some (sampleFile "docs/b.txt").
Proof.
  apply (findNodeByPath_round_trip sampleTree (sampleFile "docs/b.txt")).
  - apply (bool_decide_unpack _). by vm_compute.
  - right. exists (sampleFolder "docs" [sampleFile "docs/a.txt"; sampleFile "docs/b.txt"]).
    split; [apply elem_of_cons; by left|].
    eapply under_child; [reflexivity|reflexivity| |apply under_self].
    apply elem_of_cons. right. apply elem_of_cons. by left.
  - discriminate.
Defined.

Lemma searchParentStack_none (p : string) (stack : list (FileTreeNode * string)) :
  searchStack p (map fst stack) = None -> searchParentStack p stack = None.
Proof.
  funelim (searchParentStack p stack); intros Hnone; simpl in Hnone;
    try (rewrite searchStack_step in Hnone; simpl in Hnone;
         rewrite ?Heq in Hnone).
  - done.
  - done.
  - by apply H.
  - apply H. by rewrite map_app, map_rev, map_fst_pair.
  - by apply H.
Qed.

Lemma findParentPath_some (root : FileTreeNode) (p q : string) :
  findParentPath (Some root) (Some p) = Some q ->
  exists n par,
    findNodeByPath (Some root) (Some p) = Some n /\ n <> root
    /\ parentIn root par n /\ path par = q.
Proof.
  intros Hfound.
  assert (Hp : p <> "" /\ path root <> p).
  { simpl in Hfound. case_bool_decide; [done|]. simpl in Hfound.
    by case_bool_decide. }
  destruct Hp as [Hne Hroot].
  destruct (findNodeByPath (Some root) (Some p)) as [n|] eqn:Hfind.
  - assert (Hn : n <> root).
    { intros ->. apply findNodeByPath_sound in Hfind as ([= ?] & _). congruence. }
    destruct (findParentPath_parent root n p Hfind Hn) as (par & Hpar & Hq).
    exists n, par. split; [done|]. split; [done|]. split; [done|]. congruence.
  - exfalso. simpl in Hfound, Hfind.
    rewrite bool_decide_eq_false_2 in Hfound, Hfind by done. simpl in *.
    rewrite bool_decide_eq_false_2 in Hfound, Hfind by done.
    rewrite searchParentStack_none in Hfound; [done|].
    destruct (children root); [|done].
    by rewrite map_rev, map_fst_pair.
Qed.

Lemma parentIn_inSnapshot (root par n : FileTreeNode) :
  parentIn root par n -> inSnapshot root par /\ inSnapshot root n.
Proof.
  intros [Hn [->|(Hty & c & Hc & Hun)]].
  - split; [by left|]. right. exists n. split; [done|apply under_self].
  - split; [right; by exists c|]. right. exists c. split; [done|].
    unfold childrenOrEmpty in Hn.
    destruct (children par) as [cs|] eqn:Hch; [|by apply elem_of_nil in Hn].
    by apply (under_step c par n cs).
Qed.

(** X6. [findParentPath] answers [null] exactly for the path of the root
    and for a path that is not found in the snapshot; any path it returns
    is the path of a node of the snapshot that holds, among its children,
    the node that [findNodeByPath] finds for the target path. *)
Theorem findParentPath_null_or_parent (root : FileTreeNode) (p : string) :
  p <> "" ->
  (findParentPath (Some root) (Some p) = None
   <-> path root = p \/ findNodeByPath (Some root) (Some p) = None)
  /\ (forall q,
        findParentPath (Some root) (Some p) = Some q ->
        exists n par,
          findNodeByPath (Some root) (Some p) = Some n
          /\ parentIn root par n /\ inSnapshot root par /\ path par = q).
Proof.
  intros Hne. split.
  - split.
    + intros Hnone.
      destruct (decide (path root = p)) as [|Hroot]; [by left|right].
      destruct (findNodeByPath (Some root) (Some p)) as [n|] eqn:Hfind; [|done].
      assert (Hn : n <> root).
      { intros ->. apply findNodeByPath_sound in Hfind as ([= ?] & _). congruence. }
      destruct (findParentPath_parent root n p Hfind Hn) as (par & _ & Hq).
      congruence.
    + intros [Hroot|Hnone].
      * simpl. rewrite (bool_decide_eq_true_2 (path root = p)) by done.
        by rewrite orb_true_r.
      * destruct (findParentPath (Some root) (Some p)) as [q|] eqn:Hq; [|done].
        apply findParentPath_some in Hq as (n & par & Hfind & _). congruence.
  - intros q Hq.
    apply findParentPath_some in Hq as (n & par & Hfind & _ & Hpar & Hpath).
    exists n, par. split; [done|]. split; [done|]. split; [|done].
    by apply parentIn_inSnapshot in Hpar as [? _].
Qed.

Lemma findParentPath_null_or_parent_witness :
  findParentPath (Some sampleTree) (Some "root") = None
  /\ findParentPath (Some sampleTree) (Some "gone.txt") = None.
Proof.
  destruct (findParentPath_null_or_parent sampleTree "root") as [Hroot _];
    [discriminate|].
  destruct (findParentPath_null_or_parent sampleTree "gone.txt") as [Hgone _];
    [discriminate|].
  split.
  - apply Hroot. by left.
  - apply Hgone. right. reflexivity.
Defined.

(** ** Moving the selection, continued *)

Lemma findIndexFrom_found {A : Type} (pred : A -> bool) (l : list A) :
  forall k, (0 <= k)%Z -> findIndexFrom pred k l <> (-1)%Z ->
    exists x, l !! Z.to_nat (findIndexFrom pred k l - k) = Some x /\ pred x = true.
Proof.
  induction l as [|a l IH]; intros k Hk Hfound; simpl in *; [done|].
  destruct (pred a) eqn:Ha.
  - exists a. by rewrite Z.sub_diag.
  - destruct (IH (k + 1)%Z) as (x & Hx & Hpred); [lia|done|].
    exists x. split; [|done].
    destruct (findIndexFrom_range pred l (k + 1)%Z) as [?|Hrange]; [lia|done|].
    replace (Z.to_nat (findIndexFrom pred (k + 1) l - k))
      with (S (Z.to_nat (findIndexFrom pred (k + 1) l - (k + 1)))) by lia.
    done.
Qed.

Lemma selectedIndex_found (nodes : list VisibleNode) (sel : option string) :
  selectedIndex nodes sel <> (-1)%Z ->
  exists p i item,
    sel = Some p /\ selectedIndex nodes sel = Z.of_nat i
    /\ nodes !! i = Some item /\ path (node item) = p.
Proof.
  intros Hfound. destruct sel as [p|]; [|done]. simpl in *.
  destruct (negb (bool_decide (p = ""))); [|done].
  destruct (findIndexFrom_found _ nodes 0 (Z.le_refl 0) Hfound) as (item & Hitem & Hp).
  apply bool_decide_eq_true_1 in Hp.
  pose proof (findIndexFrom_range (fun item => bool_decide (path (node item) = p)) nodes 0)
    as Hrange.
  exists p, (Z.to_nat (findIndex (fun item => bool_decide (path (node item) = p)) nodes)),
    item.
  unfold findIndex in *. rewrite Z.sub_0_r in Hitem.
  repeat split; try done. lia.
Qed.

(** X7. Whatever the selection and the step, a move on a non-empty
    sequence of rows ends on the path of one of these rows: the selection
    never leaves the visible sequence and never becomes empty; on an empty
    sequence the selection is left as it is. *)
Theorem moveSelection_stays_visible (nodes : list VisibleNode)
    (sel : option string) (delta : Z) :
  (nodes = [] -> moveSelection nodes sel delta = sel)
  /\ (nodes <> [] ->
      exists item,
        item ∈ nodes /\ moveSelection nodes sel delta = Some (path (node item))).
Proof.
  split; [by intros ->|]. intros Hne.
  destruct (decide (selectedIndex nodes sel = (-1)%Z)) as [Hnone|Hsome].
  - rewrite (moveSelection_no_index nodes sel delta Hne Hnone).
    destruct (bool_decide (0 < delta)%Z).
    + destruct nodes as [|first rest]; [done|]. exists first.
      split; [apply elem_of_cons; by left|done].
    + destruct (last nodes) as [final|] eqn:Hlast; [|by apply last_None in Hlast].
      exists final. split; [|done].
      rewrite last_lookup in Hlast. by eapply list_elem_of_lookup_2.
  - destruct (selectedIndex_found nodes sel Hsome) as (p & i & item & -> & Hi & Hitem & Hp).
    destruct (moveSelection_at_index nodes p i item delta Hi Hitem Hp)
      as (target & Htarget & Hmove).
    exists target. split; [by eapply list_elem_of_lookup_2|done].
Qed.

(** From a selection that is not on a row, a jump of ten rows down lands
    on the first row. *)
Lemma moveSelection_stays_visible_witness :
  exists item,
    item ∈ [sampleItem "A"; sampleItem "B"; sampleItem "C"]
    /\ moveSelection [sampleItem "A"; sampleItem "B"; sampleItem "C"] (Some "Z") 10
       = Some (path (node item)).
Proof.
  destruct (moveSelection_stays_visible
              [sampleItem "A"; sampleItem "B"; sampleItem "C"] (Some "Z") 10)
    as [_ Hmove].
  apply Hmove. discriminate.
Defined.

(** ** Type-ahead, continued *)

Lemma elem_of_circularFrom {A : Type} (start : Z) (l : list A) (x : A) :
  x ∈ circularFrom start l <-> x ∈ l.
Proof.
  unfold circularFrom.
  rewrite <- (take_drop (Z.to_nat (start + 1)) l) at 3.
  rewrite !elem_of_app. tauto.
Qed.

Lemma find_some_elem {A : Type} (f : A -> bool) (l : list A) (x : A) :
  List.find f l = Some x -> x ∈ l /\ f x = true.
Proof. intros [Hin Hf]%find_some. by rewrite list_elem_of_In. Qed.

Lemma find_none_elem {A : Type} (f : A -> bool) (l : list A) :
  List.find f l = None <-> forall x, x ∈ l -> f x = false.
Proof.
  split; [|apply find_all_false].
  intros Hnone x Hx. apply (find_none f l Hnone). by apply list_elem_of_In.
Qed.

Lemma findTypeaheadMatch_none (query : string) (nodes : list VisibleNode)
    (sel : option string) :
  findTypeaheadMatch query nodes sel = None
  <-> trim query = ""
      \/ forall item, item ∈ nodes -> nameStartsWith (trim query) item = false.
Proof.
  destruct (decide (trim query = "")) as [Hq|Hq].
  - assert (findTypeaheadMatch query nodes sel = None) as ->
      by (unfold findTypeaheadMatch; by rewrite Hq).
    split; [by left|done].
  - rewrite (findTypeaheadMatch_find query nodes sel Hq), find_none_elem. split.
    + intros Hnone. right. intros item Hitem. apply Hnone.
      by apply elem_of_circularFrom.
    + intros [?|Hnone]; [done|]. intros item Hitem. apply Hnone.
      by apply elem_of_circularFrom in Hitem.
Qed.

Lemma findTypeaheadMatch_some (query : string) (nodes : list VisibleNode)
    (sel : option string) (item : VisibleNode) :
  findTypeaheadMatch query nodes sel = Some item ->
  item ∈ nodes /\ nameStartsWith (trim query) item = true /\ trim query <> "".
Proof.
  destruct (decide (trim query = "")) as [Hq|Hq].
  - unfold findTypeaheadMatch. by rewrite Hq.
  - rewrite (findTypeaheadMatch_find query nodes sel Hq).
    intros [Hitem Hmatch]%find_some_elem.
    by apply elem_of_circularFrom in Hitem.
Qed.

(** X8. For a query and node names written in ASCII characters and for
    every selection, the search is exhaustive and exact: it answers [null]
    exactly when the trimmed query is empty or no name in the sequence
    starts with it, and a node it returns is one of the sequence whose name
    starts with the trimmed query (case-insensitively). *)
Theorem findTypeaheadMatch_exhaustive (query : string) (nodes : list VisibleNode)
    (sel : option string) :
  asciiString query = true ->
  asciiNames nodes = true ->
  (findTypeaheadMatch query nodes sel = None
   <-> trim query = ""
       \/ forall item, item ∈ nodes -> nameStartsWith (trim query) item = false)
  /\ (forall item,
        findTypeaheadMatch query nodes sel = Some item ->
        item ∈ nodes /\ nameStartsWith (trim query) item = true /\ trim query <> "").
Proof.
  intros _ _.
  split; [apply findTypeaheadMatch_none|apply findTypeaheadMatch_some].
Qed.

Lemma lowerChar_idempotent (c : ascii) : lowerChar (lowerChar c) = lowerChar c.
Proof. destruct c as [[] [] [] [] [] [] [] []]; reflexivity. Qed.

Lemma isWhiteSpace_lowerChar (c : ascii) : isWhiteSpace (lowerChar c) = isWhiteSpace c.
Proof. destruct c as [[] [] [] [] [] [] [] []]; reflexivity. Qed.

Lemma lowerChar_whiteSpace (c : ascii) : isWhiteSpace c = true -> lowerChar c = c.
Proof. destruct c as [[] [] [] [] [] [] [] []]; (reflexivity || discriminate). Qed.

Lemma toLowerCase_idempotent (s : string) : toLowerCase (toLowerCase s) = toLowerCase s.
Proof. induction s as [|c s IH]; simpl; [done|]. by rewrite lowerChar_idempotent, IH. Qed.

Lemma trimStart_toLowerCase (s : string) :
  trimStart (toLowerCase s) = toLowerCase (trimStart s).
Proof.
  induction s as [|c s IH]; simpl; [done|].
  rewrite isWhiteSpace_lowerChar. by destruct (isWhiteSpace c).
Qed.

Lemma trimEnd_toLowerCase (s : string) :
  trimEnd (toLowerCase s) = toLowerCase (trimEnd s).
Proof.
  induction s as [|c s IH]; simpl; [done|].
  rewrite IH, isWhiteSpace_lowerChar.
  destruct (trimEnd s); simpl; [by destruct (isWhiteSpace c)|done].
Qed.

Lemma trimEnd_idempotent (s : string) : trimEnd (trimEnd s) = trimEnd s.
Proof.
  induction s as [|c s IH]; simpl; [done|].
  destruct (trimEnd s) as [|c' kept] eqn:Hkept.
  - destruct (isWhiteSpace c) eqn:Hc; simpl; [done|]. by rewrite Hc.
  - simpl in *. by rewrite IH.
Qed.

Lemma trimStart_trimEnd (s : string) :
  trimStart (trimEnd (trimStart s)) = trimEnd (trimStart s).
Proof.
  induction s as [|c s IH]; simpl; [done|].
  destruct (isWhiteSpace c) eqn:Hc; simpl; [exact IH|].
  destruct (trimEnd s); rewrite ?Hc; simpl; by rewrite ?Hc.
Qed.

Lemma trim_idempotent (s : string) : trim (trim s) = trim s.
Proof. unfold trim. by rewrite trimStart_trimEnd, trimEnd_idempotent. Qed.

(** X9. The search depends on the query only through its trimmed,
    lower-cased form: lower-casing the query beforehand (as the key handler
    does), trimming it, or doing both, changes nothing. *)
Theorem findTypeaheadMatch_normalized (query : string) (nodes : list VisibleNode)
    (sel : option string) :
  findTypeaheadMatch (toLowerCase query) nodes sel = findTypeaheadMatch query nodes sel
  /\ findTypeaheadMatch (trim query) nodes sel = findTypeaheadMatch query nodes sel
  /\ findTypeaheadMatch (toLowerCase (trim query)) nodes sel
     = findTypeaheadMatch query nodes sel.
Proof.
  unfold findTypeaheadMatch, trim.
  rewrite !trimStart_toLowerCase, !trimEnd_toLowerCase, !toLowerCase_idempotent.
  fold (trim query). fold (trim (trim query)). by rewrite trim_idempotent.
Qed.

Lemma findTypeaheadMatch_exhaustive_witness :
  findTypeaheadMatch "x" [sampleItem "Apple"; sampleItem "banana"] (Some "Apple")
  = None.
Proof.
  destruct (findTypeaheadMatch_exhaustive "x"
              [sampleItem "Apple"; sampleItem "banana"] (Some "Apple")
              eq_refl eq_refl)
    as [Hnone _].
  apply Hnone. right. intros item Hitem.
  repeat (apply elem_of_cons in Hitem as [->|Hitem]; [reflexivity|]).
  by apply elem_of_nil in Hitem.
Defined.

(** ** Key and click handlers *)

(** X10. With the key, the buffer and the names of the visible rows
    written in ASCII characters: a key that is neither an arrow nor
    Escape never touches the tree or the expansion set; it stamps the time
    of the keystroke, leaves a lower-case buffer (the key alone when the
    previous keystroke is more than 800 ms old, the old buffer followed by
    the key otherwise), and either selects a visible row whose name starts
    with the trimmed buffer or, when the trimmed buffer is empty or no
    visible row matches, leaves the selection as it is. *)
Theorem typeahead_key_effect (key : string) (now : Z) (s : ExplorerState) :
  asciiString key = true ->
  asciiString (buffer (typeaheadState s)) = true ->
  asciiNames (visibleNodes s) = true ->
  key <> "ArrowDown" -> key <> "ArrowUp" -> key <> "ArrowRight" ->
  key <> "ArrowLeft" -> key <> "Escape" ->
  tree (handleTreeKeyDown key now s) = tree s
  /\ expanded (handleTreeKeyDown key now s) = expanded s
  /\ lastInputTime (typeaheadState (handleTreeKeyDown key now s)) = now
  /\ buffer (typeaheadState (handleTreeKeyDown key now s))
     = toLowerCase
         (if bool_decide (TYPEAHEAD_RESET_MS < now - lastInputTime (typeaheadState s))%Z
          then key else String.append (buffer (typeaheadState s)) key)
  /\ toLowerCase (buffer (typeaheadState (handleTreeKeyDown key now s)))
     = buffer (typeaheadState (handleTreeKeyDown key now s))
  /\ ((selectedPath (handleTreeKeyDown key now s) = selectedPath s
       /\ (trim (buffer (typeaheadState (handleTreeKeyDown key now s))) = ""
           \/ forall item,
                item ∈ visibleNodes s ->
                nameStartsWith
                  (trim (buffer (typeaheadState (handleTreeKeyDown key now s))))
                  item = false))
      \/ exists item,
           item ∈ visibleNodes s
           /\ nameStartsWith
                (trim (buffer (typeaheadState (handleTreeKeyDown key now s))))
                item = true
           /\ selectedPath (handleTreeKeyDown key now s) = Some (path (node item))).
Proof.
  intros _ _ _ Hdown Hup Hright Hleft Hescape.
  unfold handleTreeKeyDown, typeaheadKey.
  rewrite !bool_decide_eq_false_2 by done.
  set (nextBuffer := toLowerCase _).
  assert (Hlower : toLowerCase nextBuffer = nextBuffer)
    by apply toLowerCase_idempotent.
  pose proof (findTypeaheadMatch_none nextBuffer (visibleNodes s) (selectedPath s))
    as Hnone.
  pose proof (findTypeaheadMatch_some nextBuffer (visibleNodes s) (selectedPath s))
    as Hsome.
  destruct (findTypeaheadMatch nextBuffer (visibleNodes s) (selectedPath s))
    as [item|] eqn:Hmatch; simpl.
  - repeat (split; [done|]). right. exists item.
    destruct (Hsome item eq_refl) as (Hitem & Hstarts & _). done.
  - repeat (split; [done|]). left. split; [done|]. by apply Hnone.
Qed.

Lemma typeahead_key_effect_witness :
  expanded (handleTreeKeyDown "N" 5000 (sampleState {["root"]} (Some "docs")))
  = {["root"]}
  /\ buffer (typeaheadState
               (handleTreeKeyDown "N" 5000 (sampleState {["root"]} (Some "docs"))))
     = "n".
Proof.
  destruct (typeahead_key_effect "N" 5000 (sampleState {["root"]} (Some "docs")))
    as (_ & Hexpanded & _ & Hbuffer & _); try discriminate; try reflexivity.
  split; [exact Hexpanded|]. rewrite Hbuffer. reflexivity.
Defined.

(** X11. A click on a row selects it and leaves the tree alone.  On a file
    row it leaves the expansion set alone; on a folder row it flips the
    membership of that folder's path in the expansion set and of no other
    path, so that a second click on the same row restores the expansion
    set. *)
Theorem onNodeClick_toggles (item : VisibleNode) (s : ExplorerState) :
  selectedPath (onNodeClick item s) = Some (path (node item))
  /\ tree (onNodeClick item s) = tree s
  /\ (type (node item) = file -> expanded (onNodeClick item s) = expanded s)
  /\ (type (node item) = folder ->
      (path (node item) ∈ expanded (onNodeClick item s)
       <-> path (node item) ∉ expanded s)
      /\ (forall q, q <> path (node item) ->
                    (q ∈ expanded (onNodeClick item s) <-> q ∈ expanded s))
      /\ expanded (onNodeClick item (onNodeClick item s)) = expanded s).
Proof.
  unfold onNodeClick. split; [done|]. split; [by destruct (type (node item))|].
  split; [by intros ->|]. intros ->. simpl.
  destruct (decide (path (node item) ∈ expanded s)) as [Hin|Hout].
  - rewrite (bool_decide_eq_true_2 (path (node item) ∈ expanded s)) by done.
    rewrite bool_decide_eq_false_2 by set_solver.
    repeat split; try set_solver.
    apply leibniz_equiv. intros q. destruct (decide (q = path (node item))); set_solver.
  - rewrite (bool_decide_eq_false_2 (path (node item) ∈ expanded s)) by done.
    rewrite bool_decide_eq_true_2 by set_solver.
    repeat split; set_solver.
Qed.

Lemma onNodeClick_toggles_witness :
  expanded
    (onNodeClick (mkVisible (sampleFolder "empty" []) 1)
       (onNodeClick (mkVisible (sampleFolder "empty" []) 1)
          (sampleState {["root"]} None)))
  = {["root"]}
  /\ expanded (onNodeClick (sampleItem "notes.txt") (sampleState {["root"]} None))
     = {["root"]}.
Proof.
  destruct (onNodeClick_toggles (mkVisible (sampleFolder "empty" []) 1)
              (sampleState {["root"]} None)) as (_ & _ & _ & Hfolder).
  destruct (onNodeClick_toggles (sampleItem "notes.txt")
              (sampleState {["root"]} None)) as (_ & _ & Hfile & _).
  split.
  - destruct Hfolder as (_ & _ & Htwice); [reflexivity|exact Htwice].
  - apply Hfile. reflexivity.
Defined.

Lemma explorer_eq (s s' : ExplorerState) :
  tree s = tree s' -> loading s = loading s' -> error s = error s' ->
  expanded s = expanded s' -> selectedPath s = selectedPath s' ->
  typeaheadState s = typeaheadState s' -> s = s'.
Proof. destruct s, s'. simpl. by intros -> -> -> -> -> ->. Qed.

(** X12. Expand and Collapse undo each other on a selected folder:
    ArrowRight on a collapsed folder followed by ArrowLeft, and ArrowLeft
    on an expanded folder followed by ArrowRight, both give back the
    state they started from. *)
Theorem arrowRight_arrowLeft_round_trip (s : ExplorerState) (n : FileTreeNode)
    (now now' : Z) :
  selectedNode s = Some n -> type n = folder ->
  (path n ∉ expanded s ->
   handleTreeKeyDown "ArrowLeft" now' (handleTreeKeyDown "ArrowRight" now s) = s)
  /\ (path n ∈ expanded s ->
      handleTreeKeyDown "ArrowRight" now' (handleTreeKeyDown "ArrowLeft" now s) = s).
Proof.
  intros Hn Hty.
  change (handleTreeKeyDown "ArrowRight" now s) with (arrowRight s).
  change (handleTreeKeyDown "ArrowLeft" now s) with (arrowLeft s).
  split; intros Hmem.
  - change (handleTreeKeyDown "ArrowLeft" now' (arrowRight s))
      with (arrowLeft (arrowRight s)).
    assert (Hright : arrowRight s = expandFolder (path n) s).
    { unfold arrowRight. rewrite Hn, Hty. by rewrite bool_decide_eq_false_2. }
    rewrite Hright. unfold arrowLeft.
    change (selectedNode (expandFolder (path n) s)) with (selectedNode s).
    rewrite Hn, Hty. simpl.
    rewrite !bool_decide_eq_true_2 by set_solver. simpl.
    apply explorer_eq; simpl; try done. set_solver.
  - change (handleTreeKeyDown "ArrowRight" now' (arrowLeft s))
      with (arrowRight (arrowLeft s)).
    assert (Hleft : arrowLeft s = collapseFolder (path n) s).
    { unfold arrowLeft. rewrite Hn, Hty. by rewrite !bool_decide_eq_true_2. }
    rewrite Hleft. unfold arrowRight.
    change (selectedNode (collapseFolder (path n) s)) with (selectedNode s).
    rewrite Hn, Hty. simpl.
    rewrite bool_decide_eq_false_2 by set_solver. simpl.
    apply explorer_eq; simpl; try done.
    apply leibniz_equiv. intros q. destruct (decide (q = path n)); set_solver.
Qed.

Lemma arrowRight_arrowLeft_round_trip_witness :
  handleTreeKeyDown "ArrowLeft" 20
    (handleTreeKeyDown "ArrowRight" 10 (sampleState {["root"]} (Some "docs")))
  = sampleState {["root"]} (Some "docs").
Proof.
  destruct (arrowRight_arrowLeft_round_trip (sampleState {["root"]} (Some "docs"))
              (sampleFolder "docs" [sampleFile "docs/a.txt"; sampleFile "docs/b.txt"])
              10 20 eq_refl eq_refl) as [Hcollapsed _].
  apply Hcollapsed. by vm_compute.
Defined.

(** ** Snapshot replacement, continued *)

(** X13. Receiving the same snapshot twice is the same as receiving it
    once, and a message that is cancelled or does not parse changes
    nothing. *)
Theorem onmessage_idempotent (s : ExplorerState) (payload : FileTreeNode) :
  onmessage false (Some payload) (onmessage false (Some payload) s)
  = onmessage false (Some payload) s
  /\ onmessage true (Some payload) s = s
  /\ (forall cancelled, onmessage cancelled None s = s).
Proof.
  split; [|split; [done|done]].
  unfold onmessage at 1. apply explorer_eq; try done.
  cbn [selectedPath onmessage].
  destruct (selectedPath s) as [p|] eqn:Hsel; [|done].
  destruct (truthy (Some p)) eqn:Htruthy; cbn [negb]; [|by rewrite Htruthy].
  destruct (findNodeByPath (Some payload) (Some p)) eqn:Hfind; [|done].
  by rewrite Htruthy, Hfind.
Qed.

Lemma onmessage_idempotent_witness :
  onmessage false None (sampleState {["root"]} (Some "docs"))
  = sampleState {["root"]} (Some "docs").
Proof.
  destruct (onmessage_idempotent (sampleState {["root"]} (Some "docs")) sampleTree)
    as (_ & _ & Hparse).
  apply Hparse.
Defined.

(** ** The selection names a node of the tree *)

Lemma typeaheadLoop_elem (normalized : string) (nodes : list VisibleNode)
    (startIndex total : Z) (remaining : nat) :
  forall offset item,
    typeaheadLoop normalized nodes startIndex total offset remaining = Some item ->
    item ∈ nodes.
Proof.
  induction remaining as [|remaining IH]; intros offset item; simpl; [done|].
  destruct (nodes !! _) as [candidate|] eqn:Hc; [|done].
  destruct (startsWith _ _); [|apply IH].
  intros [= <-]. by eapply list_elem_of_lookup_2.
Qed.

Lemma findTypeaheadMatch_elem (query : string) (nodes : list VisibleNode)
    (sel : option string) (item : VisibleNode) :
  findTypeaheadMatch query nodes sel = Some item -> item ∈ nodes.
Proof.
  unfold findTypeaheadMatch. destruct (_ || _); [done|]. apply typeaheadLoop_elem.
Qed.

Lemma findTypeaheadMatch_nil (query : string) (sel : option string) :
  findTypeaheadMatch query [] sel = None.
Proof. unfold findTypeaheadMatch. simpl. by rewrite orb_true_r. Qed.

Lemma moveSelection_cases (nodes : list VisibleNode) (sel : option string) (delta : Z) :
  moveSelection nodes sel delta = sel
  \/ exists item, item ∈ nodes /\ moveSelection nodes sel delta = Some (path (node item)).
Proof.
  unfold moveSelection.
  repeat (case_bool_decide || (destruct (nodes !! _) as [item|] eqn:Hitem));
    try (by left);
    right; exists item; (split; [by eapply list_elem_of_lookup_2|done]).
Qed.

Lemma selectionResolves_visible (s : ExplorerState) (item : VisibleNode)
    (s' : ExplorerState) :
  item ∈ visibleNodes s -> tree s' = tree s ->
  selectedPath s' = Some (path (node item)) ->
  selectionResolves s'.
Proof.
  intros Hitem Htree Hsel Htruthy. unfold selectedNode. rewrite Htree, Hsel.
  unfold visibleNodes in Hitem. destruct (tree s) as [root|]; [|by apply elem_of_nil in Hitem].
  apply findNodeByPath_resolves; [by eapply visible_inSnapshot|].
  rewrite Hsel in Htruthy. simpl in Htruthy. by case_bool_decide.
Qed.

Lemma selectionResolves_same (s s' : ExplorerState) :
  selectionResolves s -> tree s' = tree s -> selectedPath s' = selectedPath s ->
  selectionResolves s'.
Proof.
  unfold selectionResolves, selectedNode. by intros Hs -> ->.
Qed.

Lemma selectionResolves_node (s s' : ExplorerState) (root n : FileTreeNode) :
  tree s = Some root -> inSnapshot root n -> tree s' = tree s ->
  selectedPath s' = Some (path n) ->
  selectionResolves s'.
Proof.
  intros Hroot Hin Htree Hsel Htruthy. unfold selectedNode.
  rewrite Htree, Hroot, Hsel. apply findNodeByPath_resolves; [done|].
  rewrite Hsel in Htruthy. simpl in Htruthy. by case_bool_decide.
Qed.

Lemma selectionResolves_moveSelection (s : ExplorerState) (delta : Z) :
  selectionResolves s ->
  selectionResolves
    (setSelectedPath (moveSelection (visibleNodes s) (selectedPath s) delta) s).
Proof.
  intros Hs.
  destruct (moveSelection_cases (visibleNodes s) (selectedPath s) delta)
    as [Hsame|(item & Hitem & Hmove)]; rewrite ?Hsame, ?Hmove.
  - by apply (selectionResolves_same s).
  - by apply (selectionResolves_visible s item).
Qed.

Lemma selectionResolves_arrowRight (s : ExplorerState) :
  selectionResolves s -> selectionResolves (arrowRight s).
Proof.
  intros Hs. unfold arrowRight.
  destruct (selectedNode s) as [n|] eqn:Hn.
  - destruct (selectedNode_sound s n Hn) as (root & Htree & Hsel & Hne & Hin).
    destruct (type n) eqn:Hty; [done|].
    destruct (negb _); [by apply (selectionResolves_same s)|].
    destruct (children n) as [[|firstChild others]|] eqn:Hch; try done.
    apply (selectionResolves_node s _ root firstChild); try done.
    assert (Hchild : firstChild ∈ childrenOrEmpty n)
      by (unfold childrenOrEmpty; rewrite Hch; apply elem_of_cons; by left).
    destruct Hin as [->|(c & Hc & Hun)].
    + right. exists firstChild. split; [done|apply under_self].
    + right. exists c. split; [done|].
      apply (under_step c n firstChild (firstChild :: others)); try done.
      apply elem_of_cons. by left.
  - destruct (visibleNodes s) as [|first rest] eqn:Hvis; [done|].
    apply (selectionResolves_visible s first); try done.
    rewrite Hvis. apply elem_of_cons. by left.
Qed.

Lemma selectionResolves_arrowLeft (s : ExplorerState) :
  selectionResolves s -> selectionResolves (arrowLeft s).
Proof.
  intros Hs. unfold arrowLeft.
  destruct (selectedNode s) as [n|] eqn:Hn; [|done].
  destruct (selectedNode_sound s n Hn) as (root & Htree & Hsel & Hne & Hin).
  destruct (_ && _); [by apply (selectionResolves_same s)|].
  destruct (findParentPath (tree s) (selectedPath s)) as [q|] eqn:Hq; [|done].
  simpl. case_bool_decide; simpl; [done|].
  rewrite Htree, Hsel in Hq.
  apply findParentPath_some in Hq as (n' & par & _ & _ & Hpar & <-).
  apply (selectionResolves_node s _ root par); try done.
  by apply parentIn_inSnapshot in Hpar as [? _].
Qed.

Lemma selectionResolves_typeaheadKey (s : ExplorerState) (key : string) (now : Z) :
  selectionResolves s -> selectionResolves (typeaheadKey key now s).
Proof.
  intros Hs. unfold typeaheadKey.
  case_bool_decide; [by apply (selectionResolves_same s)|].
  destruct (findTypeaheadMatch _ _ _) as [item|] eqn:Hmatch.
  - apply (selectionResolves_visible s item); try done.
    by apply findTypeaheadMatch_elem in Hmatch.
  - by apply (selectionResolves_same s).
Qed.

Lemma selectionResolves_onmessage (s : ExplorerState) (payload : FileTreeNode) :
  selectionResolves (onmessage false (Some payload) s).
Proof.
  unfold selectionResolves, selectedNode, onmessage. cbn [selectedPath tree].
  destruct (truthy (selectedPath s)) eqn:Htruthy; cbn [negb].
  - destruct (findNodeByPath (Some payload) (selectedPath s)) eqn:Hfind; [|done].
    intros _. rewrite Hfind. by eexists.
  - by rewrite Htruthy.
Qed.

(** X14. In every state the component reaches from its initial state
    through push messages, key presses and clicks on rendered rows, a
    selection that counts as one (a non-empty path) names a node of the
    current tree, and nothing is selected as long as no tree has been
    received. *)
Theorem selection_names_a_node (s : ExplorerState) :
  explorerReachable s ->
  (truthy (selectedPath s) = true -> is_Some (selectedNode s))
  /\ (tree s = None -> selectedPath s = None).
Proof.
  induction 1 as [|s payload _ [IH1 IH2]|s key now _ [IH1 IH2]|s item _ [IH1 IH2] Hitem].
  - done.
  - split; [apply selectionResolves_onmessage|done].
  - split.
    + unfold handleTreeKeyDown.
      repeat case_bool_decide.
      * by apply selectionResolves_moveSelection.
      * by apply selectionResolves_moveSelection.
      * by apply selectionResolves_arrowRight.
      * by apply selectionResolves_arrowLeft.
      * by apply selectionResolves_typeaheadKey.
    + intros Htree.
      assert (Hsame : tree (handleTreeKeyDown key now s) = tree s).
      { unfold handleTreeKeyDown, arrowRight, arrowLeft, typeaheadKey.
        repeat (case_bool_decide || case_match); done. }
      rewrite Hsame in Htree. specialize (IH2 Htree).
      assert (Hvis : visibleNodes s = []) by (unfold visibleNodes; by rewrite Htree).
      assert (Hnode : selectedNode s = None) by (unfold selectedNode; by rewrite Htree).
      unfold handleTreeKeyDown, arrowRight, arrowLeft, typeaheadKey.
      rewrite Hvis, Hnode, IH2.
      repeat case_bool_decide; simpl; rewrite ?findTypeaheadMatch_nil; done.
  - split.
    + apply (selectionResolves_visible s item); try done.
      unfold onNodeClick. by destruct (type (node item)).
    + intros Htree.
      assert (Hsame : tree (onNodeClick item s) = tree s)
        by (unfold onNodeClick; by destruct (type (node item))).
      rewrite Hsame in Htree. unfold visibleNodes in Hitem. rewrite Htree in Hitem.
      by apply elem_of_nil in Hitem.
Qed.

(** After a snapshot from which the selected file is gone, and a key
    press, the selection names a node again. *)
Lemma selection_names_a_node_witness :
  is_Some
    (selectedNode
       (handleTreeKeyDown "ArrowDown" 0
          (onmessage false (Some (sampleFolder "root" [sampleFile "notes.txt"]))
             (onNodeClick (mkVisible sampleTree 0)
                (onmessage false (Some sampleTree) initialExplorer))))).
Proof.
  apply selection_names_a_node; [|reflexivity].
  apply explorer_key, explorer_message, explorer_click;
    [apply explorer_message, explorer_initial|].
  apply elem_of_cons. by left.
Defined.

(** ** Shared watcher, continued *)

Lemma rawEvent_watcher (now : Z) (s : ServerState) :
  watcher (rawEvent now s) = watcher s
  /\ listeners (rawEvent now s) = listeners s
  /\ opened (rawEvent now s) = opened s
  /\ closed (rawEvent now s) = closed s.
Proof.
  unfold rawEvent, runTimers, scheduleEmit, timeoutCallback.
  destruct (debounceTimer s) as [due|] eqn:Htimer; simpl.
  - case_bool_decide; simpl; by rewrite ?Htimer.
  - by rewrite Htimer.
Qed.

Lemma handlesAccounted_server (a : AsyncServer) (s : ServerState)
    (tree0 watcher0 : list nat) :
  watcher s = watcher (server a) -> opened s = opened (server a) ->
  closed s = closed (server a) ->
  handlesAccounted a -> handlesAccounted (mkAsync s tree0 watcher0 (overwritten a)).
Proof.
  unfold handlesAccounted. simpl. by intros -> -> ->.
Qed.

Lemma handlesAccounted_openWatcher (a : AsyncServer) (tree0 watcher0 : list nat) :
  handlesAccounted a ->
  handlesAccounted
    (mkAsync (openWatcher (server a)) tree0 watcher0
       (overwritten a ++ heldHandle (server a))).
Proof.
  intros (Hnodup & Hclosed & Hlost & Hcur & Hall).
  unfold handlesAccounted, openWatcher, heldHandle. simpl.
  split; [done|].
  split; [intros h Hh; specialize (Hclosed h Hh); lia|].
  split; [|split].
  - intros h Hh. apply elem_of_app in Hh as [Hh|Hh].
    + destruct (Hlost h Hh). split; [lia|done].
    + destruct (watcher (server a)) as [w|] eqn:Hw; [|by apply elem_of_nil in Hh].
      apply list_elem_of_singleton in Hh as ->.
      destruct (Hcur w eq_refl) as (? & ? & _). split; [lia|done].
  - intros w [= <-]. split; [lia|]. split.
    + intros Hin. specialize (Hclosed _ Hin). lia.
    + intros Hin. apply elem_of_app in Hin as [Hin|Hin].
      * destruct (Hlost _ Hin). lia.
      * destruct (watcher (server a)) as [w|] eqn:Hw; [|by apply elem_of_nil in Hin].
        apply list_elem_of_singleton in Hin.
        destruct (Hcur w eq_refl) as (? & _). lia.
  - intros h Hh. destruct (decide (h = opened (server a))) as [->|Hne]; [by left|].
    right. destruct (Hall h) as [Hheld|[?|?]]; [lia| |by left|].
    + right. apply elem_of_app. right. rewrite Hheld. by apply list_elem_of_singleton.
    + right. apply elem_of_app. by left.
Qed.

Lemma handlesAccounted_stopWatcher (a : AsyncServer) (s : ServerState)
    (tree0 watcher0 : list nat) :
  watcher s = watcher (server a) -> opened s = opened (server a) ->
  closed s = closed (server a) ->
  handlesAccounted a ->
  handlesAccounted (mkAsync (stopWatcher s) tree0 watcher0 (overwritten a)).
Proof.
  intros Hw Ho Hc (Hnodup & Hclosed & Hlost & Hcur & Hall).
  unfold handlesAccounted. cbn [server overwritten]. unfold stopWatcher. rewrite Hw.
  destruct (watcher (server a)) as [w|] eqn:Hheld; simpl; rewrite ?Hw, ?Ho, ?Hc.
  - destruct (Hcur w eq_refl) as (Hlt & Hnot & Hkept).
    split; [|split; [|split; [|split]]].
    + apply NoDup_app. split; [done|]. split; [|apply NoDup_singleton].
      intros h Hh Hw'. apply list_elem_of_singleton in Hw'. by subst.
    + intros h Hh. apply elem_of_app in Hh as [Hh|Hh]; [by apply Hclosed|].
      apply list_elem_of_singleton in Hh. by subst.
    + intros h Hh. destruct (Hlost h Hh) as [? Hopen]. split; [done|].
      intros Hin. apply elem_of_app in Hin as [Hin|Hin]; [done|].
      apply list_elem_of_singleton in Hin. by subst.
    + done.
    + intros h Hh. right.
      destruct (Hall h Hh) as [[= ->]|[?|?]].
      * left. apply elem_of_app. right. by apply list_elem_of_singleton.
      * left. apply elem_of_app. by left.
      * by right.
  - split; [done|]. split; [done|]. split; [done|]. split; [done|]. exact Hall.
Qed.

Lemma handlesAccounted_step (e : AsyncEvent) (a : AsyncServer) :
  handlesAccounted a -> handlesAccounted (asyncStep e a).
Proof.
  intros Hinv. destruct e as [cb|cb|cb|cb| |now]; simpl.
  - destruct (watcher (server a)); by apply handlesAccounted_server.
  - case_bool_decide; [|done]. by apply handlesAccounted_openWatcher.
  - case_bool_decide; [|done]. by apply handlesAccounted_server.
  - unfold unsubscribe. cbn [listeners]. case_bool_decide.
    + by apply handlesAccounted_stopWatcher.
    + by apply handlesAccounted_server.
  - unfold watcherError. by apply handlesAccounted_stopWatcher.
  - destruct (rawEvent_watcher now (server a)) as (Hw & _ & Ho & Hc).
    by apply handlesAccounted_server.
Qed.

Lemma handlesAccounted_run (events : list AsyncEvent) :
  forall a, handlesAccounted a -> handlesAccounted (asyncRun events a).
Proof.
  induction events as [|e events IH]; intros a Hinv; simpl; [done|].
  by apply IH, handlesAccounted_step.
Qed.

Lemma handlesAccounted_initial : handlesAccounted initialAsync.
Proof.
  unfold handlesAccounted. simpl.
  split; [apply NoDup_nil_2|]. split; [by intros h ?%elem_of_nil|].
  split; [by intros h ?%elem_of_nil|]. split; [done|]. intros h Hh. lia.
Qed.

Lemma elem_of_openHandles (h : nat) (s : ServerState) :
  h ∈ openHandles s <-> h < opened s /\ h ∉ closed s.
Proof.
  unfold openHandles. rewrite list_elem_of_filter, elem_of_seq. split.
  - intros [Hnot [_ Hlt]]. split; [exact Hlt|done].
  - intros [Hlt Hnot]. split; [done|]. split; [lia|exact Hlt].
Qed.

Lemma overwritten_step (e : AsyncEvent) (a : AsyncServer) :
  overwritten (asyncStep e a) = overwritten a
  \/ exists cb w,
       e = TreeOnDisk cb /\ cb ∈ awaitingTree a /\ watcher (server a) = Some w
       /\ overwritten (asyncStep e a) = overwritten a ++ [w].
Proof.
  destruct e as [cb|cb|cb|cb| |now]; simpl; try by left.
  - left. by destruct (watcher (server a)).
  - case_bool_decide as Hcb; [|by left]. simpl. unfold heldHandle.
    destruct (watcher (server a)) as [w|] eqn:Hw.
    + right. by exists cb, w.
    + left. by rewrite app_nil_r.
  - left. by case_bool_decide.
Qed.

(** X15. Whatever subscription calls (suspended at their awaits and
    resumed in any order), unsubscriptions, watcher failures and raw
    events occur: no handle is closed twice; the handle held is neither a
    closed one nor one that was replaced; a handle that was replaced in
    [watcher] while held is never closed; and every handle ever opened is
    the one held, has been closed, or has been replaced; so the handles
    that are open are the one held and the replaced ones.  A handle is
    replaced only when [ensureWatcher] resumes from
    [await ensureTreeOnDisk()] with a watcher already set.  A watcher
    failure clears [watcher] and keeps the listeners. *)
Theorem watcher_handles_accounted (events : list AsyncEvent) :
  NoDup (closed (server (asyncRun events initialAsync)))
  /\ (forall w,
        watcher (server (asyncRun events initialAsync)) = Some w ->
        (w ∉ closed (server (asyncRun events initialAsync)))
        /\ w ∉ overwritten (asyncRun events initialAsync))
  /\ (forall h,
        h ∈ overwritten (asyncRun events initialAsync) ->
        h < opened (server (asyncRun events initialAsync))
        /\ h ∉ closed (server (asyncRun events initialAsync)))
  /\ (forall h,
        h < opened (server (asyncRun events initialAsync)) ->
        watcher (server (asyncRun events initialAsync)) = Some h
        \/ h ∈ closed (server (asyncRun events initialAsync))
        \/ h ∈ overwritten (asyncRun events initialAsync))
  /\ (forall h,
        h ∈ openHandles (server (asyncRun events initialAsync))
        <-> watcher (server (asyncRun events initialAsync)) = Some h
            \/ h ∈ overwritten (asyncRun events initialAsync))
  /\ (forall e,
        overwritten (asyncStep e (asyncRun events initialAsync))
        = overwritten (asyncRun events initialAsync)
        \/ exists cb w,
             e = TreeOnDisk cb
             /\ cb ∈ awaitingTree (asyncRun events initialAsync)
             /\ watcher (server (asyncRun events initialAsync)) = Some w
             /\ overwritten (asyncStep e (asyncRun events initialAsync))
                = overwritten (asyncRun events initialAsync) ++ [w])
  /\ watcher (server (asyncStep WatcherFails (asyncRun events initialAsync))) = None
  /\ listeners (server (asyncStep WatcherFails (asyncRun events initialAsync)))
     = listeners (server (asyncRun events initialAsync)).
Proof.
  pose proof (handlesAccounted_run events initialAsync handlesAccounted_initial)
    as (Hnodup & Hclosed & Hlost & Hcur & Hall).
  set (a := asyncRun events initialAsync) in *.
  split; [done|].
  split; [intros w Hw; by destruct (Hcur w Hw) as (_ & ? & ?)|].
  split; [done|]. split; [done|].
  split.
  { intros h. rewrite elem_of_openHandles. split.
    - intros [Hlt Hnot]. destruct (Hall h Hlt) as [?|[?|?]]; [by left|done|by right].
    - intros [Hheld|Hgone].
      + by destruct (Hcur h Hheld) as (? & ? & _).
      + by apply Hlost. }
  split; [intros e; apply overwritten_step|].
  simpl. unfold watcherError, stopWatcher.
  by destruct (watcher (server a)) eqn:Hw.
Qed.

(** Two clients connect together, then both leave: handle 1 is closed,
    handle 0 is neither held nor closed, so it is the replaced one. *)
Lemma watcher_handles_accounted_witness :
  0 ∈ overwritten (asyncRun (overlappingCalls ++ bothLeave) initialAsync)
  /\ closed (server (asyncRun (overlappingCalls ++ bothLeave) initialAsync)) = [1].
Proof.
  destruct (watcher_handles_accounted (overlappingCalls ++ bothLeave))
    as (_ & _ & _ & Hall & _ & _).
  destruct (Hall 0) as [Hheld|[Hclosed|Hlost]]; [vm_compute; lia| | |].
  - vm_compute in Hheld. discriminate.
  - vm_compute in Hclosed. apply list_elem_of_singleton in Hclosed. discriminate.
  - split; [exact Hlost|reflexivity].
Defined.

Lemma removeListener_last (cb : nat) (l : list nat) :
  removeListener cb (l ++ [cb]) = l.
Proof.
  induction l as [|x l IH]; simpl.
  - by rewrite bool_decide_eq_true_2.
  - rewrite bool_decide_eq_true_2 by set_solver. by rewrite IH.
Qed.

Lemma removeListener_others (cb : nat) (l : list nat) :
  filter (fun x => x <> cb) (removeListener cb l) = filter (fun x => x <> cb) l.
Proof.
  induction l as [|x l IH]; simpl; [done|].
  case_bool_decide as Hin.
  - destruct (decide (x <> cb)).
    + by rewrite !filter_cons_True, IH by done.
    + by rewrite !filter_cons_False by done.
  - case_bool_decide as Hx; [|done].
    by rewrite filter_cons_False by (intros ?; done).
Qed.

Lemma removeListener_length (cb : nat) (l : list nat) :
  (cb ∈ l -> length (removeListener cb l) + 1 = length l)
  /\ (cb ∉ l -> removeListener cb l = l).
Proof.
  induction l as [|x l [IHin IHout]]; simpl.
  - split; [by intros ?%elem_of_nil|done].
  - case_bool_decide as Hin.
    + split; [intros _; simpl; specialize (IHin Hin); lia|].
      intros Hnot. destruct Hnot. apply elem_of_cons. by right.
    + case_bool_decide as Hx.
      * split; [intros _; lia|]. intros Hnot. destruct Hnot. apply elem_of_cons. by left.
      * split; [|done]. intros [?|?]%elem_of_cons; done.
Qed.

Lemma removeListener_NoDup (cb : nat) (l : list nat) :
  NoDup l -> cb ∉ removeListener cb l.
Proof.
  induction l as [|x l IH]; intros Hnodup; simpl; [by intros ?%elem_of_nil|].
  apply NoDup_cons in Hnodup as [Hx Hl].
  case_bool_decide as Hin.
  - intros [->|?]%elem_of_cons; [done|by apply IH].
  - case_bool_decide as Heq; [done|].
    intros [?|?]%elem_of_cons; done.
Qed.

Lemma unsubscribe_listeners (cb : nat) (s : ServerState) :
  listeners (unsubscribe cb s) = removeListener cb (listeners s).
Proof.
  unfold unsubscribe, stopWatcher. simpl.
  case_bool_decide; [|done]. by destruct (watcher s).
Qed.

(** X16. Unsubscribing removes one registration of that callback, the
    most recent one, and nothing else: the other callbacks stay registered
    in the same order, a callback that is not registered changes nothing,
    a callback registered once is gone afterwards, and subscribing then
    unsubscribing a callback restores the list of listeners (and the whole
    state when a watcher was already held). *)
Theorem unsubscribe_removes_one (cb : nat) (s : ServerState) :
  filter (fun x => x <> cb) (listeners (unsubscribe cb s))
  = filter (fun x => x <> cb) (listeners s)
  /\ (cb ∈ listeners s ->
      length (listeners (unsubscribe cb s)) + 1 = length (listeners s))
  /\ (cb ∉ listeners s -> listeners (unsubscribe cb s) = listeners s)
  /\ (NoDup (listeners s) -> cb ∉ listeners (unsubscribe cb s))
  /\ listeners (unsubscribe cb (subscribe cb s)) = listeners s
  /\ (is_Some (watcher s) -> listeners s <> [] ->
      unsubscribe cb (subscribe cb s) = s).
Proof.
  rewrite !unsubscribe_listeners.
  split; [apply removeListener_others|].
  split; [apply removeListener_length|].
  split; [apply removeListener_length|].
  split; [apply removeListener_NoDup|].
  assert (Hsub : listeners (subscribe cb s) = listeners s ++ [cb]).
  { unfold subscribe, ensureWatcher. by destruct (watcher s). }
  split; [by rewrite Hsub, removeListener_last|].
  intros [w Hw] Hne. unfold unsubscribe, subscribe, ensureWatcher.
  rewrite Hw. simpl. rewrite removeListener_last.
  rewrite bool_decide_eq_false_2 by (by intros ?%nil_length_inv).
  by destruct s.
Qed.

Lemma unsubscribe_removes_one_witness :
  listeners (unsubscribe 2 (serverRun [SubscribeCall 1; SubscribeCall 2; SubscribeCall 3]
                              initialServer))
  = [1; 3]
  /\ listeners (unsubscribe 7 (serverRun [SubscribeCall 1; SubscribeCall 2] initialServer))
     = [1; 2].
Proof.
  destruct (unsubscribe_removes_one 7
              (serverRun [SubscribeCall 1; SubscribeCall 2] initialServer))
    as (_ & _ & Habsent & _).
  split; [reflexivity|]. rewrite Habsent; [reflexivity|].
  vm_compute. intros Hin. repeat (apply elem_of_cons in Hin as [?|Hin]; [done|]).
  by apply elem_of_nil in Hin.
Defined.

(** ** Coalescing timer, continued *)

Lemma settle_rawEvents_signals (times : list Z) :
  forall s,
    emitted (settle (rawEvents times s))
    = emitted s ++ signalTimes (debounceTimer s) times.
Proof.
  induction times as [|now times IH]; intros s.
  - unfold settle. simpl. destruct (debounceTimer s); simpl; [done|by rewrite app_nil_r].
  - simpl rawEvents. rewrite IH. simpl.
    unfold rawEvent, runTimers, scheduleEmit.
    destruct (debounceTimer s) as [due|] eqn:Htimer.
    + case_bool_decide; simpl; [by rewrite <- app_assoc|].
      repeat (rewrite Htimer; simpl). done.
    + repeat (rewrite Htimer; simpl). done.
Qed.

Lemma signalTimes_pending (times : list Z) :
  forall due, due ∈ signalTimes (Some due) times.
Proof.
  induction times as [|now times IH]; intros due; simpl.
  - apply elem_of_cons. by left.
  - case_bool_decide; [apply elem_of_cons; by left|apply IH].
Qed.

Lemma signalTimes_latency (times : list Z) :
  forall timer,
    nonDecreasing times ->
    (forall due, timer = Some due -> Forall (fun t => (due <= t + COALESCE_MS)%Z) times) ->
    forall t, t ∈ times ->
      exists e, e ∈ signalTimes timer times /\ (t < e <= t + COALESCE_MS)%Z.
Proof.
  induction times as [|now times IH]; intros timer Hsorted Hdue t Ht;
    [by apply elem_of_nil in Ht|].
  destruct Hsorted as [Hfirst Hsorted].
  assert (Hnext : forall due, Some (now + COALESCE_MS)%Z = Some due ->
                              Forall (fun t => (due <= t + COALESCE_MS)%Z) times).
  { intros due [= <-]. eapply Forall_impl; [exact Hfirst|]. simpl. lia. }
  assert (Hfresh : forall t, t ∈ now :: times ->
            exists e, e ∈ signalTimes (Some (now + COALESCE_MS)%Z) times
                      /\ (t < e <= t + COALESCE_MS)%Z).
  { intros t' [->|Ht']%elem_of_cons.
    - exists (now + COALESCE_MS)%Z. split; [apply signalTimes_pending|].
      unfold COALESCE_MS. lia.
    - by apply IH. }
  simpl. destruct timer as [due|]; [|by apply Hfresh].
  case_bool_decide as Hfired.
  - destruct (Hfresh t Ht) as (e & He & Hbound).
    exists e. split; [apply elem_of_cons; by right|done].
  - specialize (Hdue due eq_refl). apply Forall_cons in Hdue as [Hnow Hrest].
    apply elem_of_cons in Ht as [->|Ht].
    + exists due. split; [apply signalTimes_pending|lia].
    + apply IH; try done. by intros due' [= <-].
Qed.

(** X17. No raw event is lost and none waits longer than the quiet period:
    starting with no timeout pending, for raw events whose times do not go
    backwards, every raw event is followed by a signal that comes after it
    and at most [COALESCE_MS] later. *)
Theorem scheduleEmit_latency (times : list Z) (s : ServerState) :
  debounceTimer s = None -> nonDecreasing times ->
  exists signals,
    emitted (settle (rawEvents times s)) = emitted s ++ signals
    /\ forall t, t ∈ times ->
         exists e, e ∈ signals /\ (t < e <= t + COALESCE_MS)%Z.
Proof.
  intros Hidle Hsorted. exists (signalTimes None times).
  split; [by rewrite settle_rawEvents_signals, Hidle|].
  by apply signalTimes_latency.
Qed.

(** A burst that lasts longer than the quiet period is served by two
    signals; each of its events is followed by one within 75 ms. *)
Lemma scheduleEmit_latency_witness :
  exists signals,
    emitted (settle (rawEvents [0; 30; 60; 90; 120]%Z initialServer)) = signals
    /\ forall t, t ∈ [0; 30; 60; 90; 120]%Z ->
         exists e, e ∈ signals /\ (t < e <= t + COALESCE_MS)%Z.
Proof.
  destruct (scheduleEmit_latency [0; 30; 60; 90; 120]%Z initialServer eq_refl)
    as (signals & Hemit & Hall).
  - simpl. repeat split; repeat (apply Forall_cons; split; [lia|]); apply Forall_nil; done.
  - exists signals. split; [exact Hemit|exact Hall].
Defined.

Lemma signalTimes_apart (times : list Z) :
  forall timer,
    apartAtLeast COALESCE_MS (signalTimes timer times)
    /\ (forall due, timer = Some due -> Forall (Z.le due) (signalTimes timer times)).
Proof.
  induction times as [|now times IH]; intros timer; simpl.
  - destruct timer as [due|]; simpl.
    + split; [split; [apply Forall_nil|]; done|].
      intros due' [= <-]. apply Forall_cons. split; [lia|apply Forall_nil; done].
    + split; [done|by intros].
  - destruct timer as [due|]; [|split; [apply IH|by intros]].
    case_bool_decide as Hfired.
    + destruct (IH (Some (now + COALESCE_MS)%Z)) as [Hapart Hlower].
      specialize (Hlower _ eq_refl).
      split.
      * simpl. split; [|done]. eapply Forall_impl; [exact Hlower|]. simpl. lia.
      * intros due' [= <-]. apply Forall_cons. split; [lia|].
        eapply Forall_impl; [exact Hlower|]. simpl. unfold COALESCE_MS. lia.
    + apply IH.
Qed.

Lemma signalTimes_origin (times : list Z) :
  forall timer e,
    e ∈ signalTimes timer times ->
    timer = Some e \/ exists t, t ∈ times /\ e = (t + COALESCE_MS)%Z.
Proof.
  induction times as [|now times IH]; intros timer e; simpl.
  - destruct timer as [due|]; [|by intros ?%elem_of_nil].
    intros ->%list_elem_of_singleton. by left.
  - assert (Hfresh : e ∈ signalTimes (Some (now + COALESCE_MS)%Z) times ->
                     exists t, t ∈ now :: times /\ e = (t + COALESCE_MS)%Z).
    { intros [[= <-]|(t & Ht & ->)]%IH.
      - exists now. split; [apply elem_of_cons; by left|done].
      - exists t. split; [apply elem_of_cons; by right|done]. }
    destruct timer as [due|]; [|intros He; right; by apply Hfresh].
    case_bool_decide.
    + intros [->|He]%elem_of_cons; [by left|right; by apply Hfresh].
    + intros [?|(t & Ht & ->)]%IH; [by left|].
      right. exists t. split; [apply elem_of_cons; by right|done].
Qed.

Lemma signalTimes_count (times : list Z) :
  forall timer,
    length (signalTimes timer times)
    <= length times + match timer with Some _ => 1 | None => 0 end.
Proof.
  induction times as [|now times IH]; intros timer; simpl.
  - by destruct timer.
  - destruct timer as [due|].
    + case_bool_decide; simpl.
      * specialize (IH (Some (now + COALESCE_MS)%Z)). simpl in IH. lia.
      * specialize (IH (Some due)). simpl in IH. lia.
    + specialize (IH (Some (now + COALESCE_MS)%Z)). simpl in IH. lia.
Qed.

(** X18. The coalescer bounds the refresh rate and invents nothing:
    whatever the times of the raw events, the signals come in increasing
    order, at least [COALESCE_MS] apart; starting with no timeout pending,
    there are at most as many signals as raw events, at least one when
    there is a raw event, and each signal comes exactly [COALESCE_MS]
    after some raw event. *)
Theorem scheduleEmit_rate (times : list Z) (s : ServerState) :
  exists signals,
    emitted (settle (rawEvents times s)) = emitted s ++ signals
    /\ apartAtLeast COALESCE_MS signals
    /\ (debounceTimer s = None ->
        length signals <= length times
        /\ (times <> [] -> signals <> [])
        /\ forall e, e ∈ signals ->
             exists t, t ∈ times /\ e = (t + COALESCE_MS)%Z).
Proof.
  exists (signalTimes (debounceTimer s) times).
  split; [apply settle_rawEvents_signals|].
  split; [apply signalTimes_apart|].
  intros ->. split; [|split].
  - pose proof (signalTimes_count times None). simpl in *. lia.
  - destruct times as [|now times]; [done|]. intros _ Hnil. simpl in Hnil.
    pose proof (signalTimes_pending times (now + COALESCE_MS)%Z) as Hin.
    rewrite Hnil in Hin. by apply elem_of_nil in Hin.
  - intros e He. by destruct (signalTimes_origin times None e He).
Qed.

Lemma scheduleEmit_rate_witness :
  exists signals,
    emitted (settle (rawEvents [0; 30; 60; 90; 120]%Z initialServer)) = signals
    /\ apartAtLeast COALESCE_MS signals
    /\ length signals <= 5.
Proof.
  destruct (scheduleEmit_rate [0; 30; 60; 90; 120]%Z initialServer)
    as (signals & Hemit & Hapart & Hidle).
  destruct (Hidle eq_refl) as (Hcount & _).
  exists signals. split; [exact Hemit|]. split; [exact Hapart|exact Hcount].
Defined.

(** ** Depths of the rows *)

Lemma stepsByOne_app (lo previous : nat) (l1 l2 : list nat) :
  Forall (fun d => lo <= d) l1 ->
  stepsByOne previous l1 -> stepsByOne previous l2 ->
  (forall p, lo <= p -> stepsByOne p l2) ->
  stepsByOne previous (l1 ++ l2).
Proof.
  revert previous. induction l1 as [|d l1 IH]; intros previous Hall Hl1 Hl2 Hany; simpl.
  - done.
  - apply Forall_cons in Hall as [Hd Hall]. destruct Hl1 as [Hstep Hl1].
    split; [done|]. apply IH; try done. by apply Hany.
Qed.

Lemma stepsByOne_lookup (depths : list nat) :
  forall previous i a b,
    stepsByOne previous depths ->
    depths !! i = Some a -> depths !! S i = Some b -> b <= a + 1.
Proof.
  induction depths as [|d depths IH]; intros previous i a b Hsteps Ha Hb; [done|].
  destruct Hsteps as [_ Hsteps]. destruct i as [|i]; simpl in *.
  - injection Ha as ->. destruct depths as [|d' depths]; [done|].
    simpl in *. injection Hb as ->. by destruct Hsteps.
  - by apply (IH d i a b).
Qed.

Lemma map_lookup {A B : Type} (f : A -> B) (l : list A) (i : nat) :
  map f l !! i = f <$> l !! i.
Proof.
  revert i. induction l as [|x l IH]; intros [|i]; simpl; done.
Qed.

Lemma preorder_children_depths (E : gset string) (d : nat) (cs : list FileTreeNode) :
  Forall (fun c => forall d,
            Forall (fun x => d <= x) (map depth (preorder E c d))
            /\ forall previous, d <= previous + 1 ->
                 stepsByOne previous (map depth (preorder E c d))) cs ->
  Forall (fun x => d + 1 <= x)
    (map depth (flat_map (fun c => preorder E c (d + 1)) cs))
  /\ forall previous, d <= previous ->
       stepsByOne previous
         (map depth (flat_map (fun c => preorder E c (d + 1)) cs)).
Proof.
  induction 1 as [|c cs Hc _ [IHall IHsteps]]; simpl; [by split|].
  destruct (Hc (d + 1)) as [Hall Hsteps]. rewrite map_app. split.
  - by apply Forall_app.
  - intros previous Hprev.
    apply (stepsByOne_app (d + 1)); try done.
    + apply Hsteps. lia.
    + by apply IHsteps.
    + intros q Hq. apply IHsteps. lia.
Qed.

Lemma preorder_depths (E : gset string) (n : FileTreeNode) :
  forall d,
    Forall (fun x => d <= x) (map depth (preorder E n d))
    /\ forall previous, d <= previous + 1 ->
         stepsByOne previous (map depth (preorder E n d)).
Proof.
  induction n as [ty nm p ch IH] using FileTreeNode_ind. intros d.
  assert (Hrest : forall rest,
            Forall (fun x => d + 1 <= x) rest ->
            (forall previous, d <= previous -> stepsByOne previous rest) ->
            Forall (fun x => d <= x) (d :: rest)
            /\ forall previous, d <= previous + 1 -> stepsByOne previous (d :: rest)).
  { intros rest Hall Hsteps. split.
    - apply Forall_cons. split; [done|]. eapply Forall_impl; [exact Hall|]. simpl. lia.
    - intros previous Hprev. split; [done|]. by apply Hsteps. }
  simpl. destruct ty, ch as [cs|]; simpl; try (by apply Hrest).
  case_bool_decide; [|by apply Hrest].
  by apply Hrest; apply (preorder_children_depths E d cs IH).
Qed.

(** X19. The first row is at depth 0, every other row is at depth 1 or
    more, and from one row to the next the depth rises by at most one:
    the indentation never skips a level. *)
Theorem flattenTree_depth_steps (root : FileTreeNode) (E : gset string) :
  (exists first, head (flattenTree root E) = Some first /\ depth first = 0)
  /\ forall i a b,
       flattenTree root E !! i = Some a -> flattenTree root E !! S i = Some b ->
       1 <= depth b <= depth a + 1.
Proof.
  split.
  { exists (mkVisible root 0). split; [apply flattenTree_head|done]. }
  intros i a b Ha Hb.
  unfold flattenTree in *. rewrite visit_preorder in Ha, Hb. simpl app in *.
  destruct (preorder_depths E root 0) as [_ Hsteps].
  split.
  - destruct root as [ty nm p ch]. simpl in Hb.
    assert (Hbelow : forall cs,
              Forall (fun x => 1 <= x)
                (map depth (flat_map (fun c => preorder E c (0 + 1)) cs))).
    { intros cs.
      apply (preorder_children_depths E 0 cs).
      apply Forall_forall. intros c _. apply preorder_depths. }
    destruct ty, ch as [cs|]; simpl in Hb; try by rewrite lookup_nil in Hb.
    case_bool_decide; [|by rewrite lookup_nil in Hb].
    specialize (Hbelow cs). rewrite Forall_forall in Hbelow.
    apply Hbelow. apply elem_of_map. exists b. split; [done|].
    by eapply list_elem_of_lookup_2.
  - apply (stepsByOne_lookup (map depth (preorder E root 0)) 0 i);
      [apply Hsteps; lia| |]; rewrite map_lookup; [by rewrite Ha|by rewrite Hb].
Qed.

(** In the sample tree, the row after "docs/b.txt" (depth 2) is
    "notes.txt" (depth 1). *)
Lemma flattenTree_depth_steps_witness :
  1 <= depth (mkVisible (sampleFile "notes.txt") 1)
    <= depth (mkVisible (sampleFile "docs/b.txt") 2) + 1.
Proof.
  destruct (flattenTree_depth_steps sampleTree {["root"; "docs"]}) as [_ Hsteps].
  apply (Hsteps 3); reflexivity.
Defined.
